(** * knuu, package k8s: pod manifests, data seeding, and the pod client

    A shallow embedding of [pkg/k8s/pod.go] and [pkg/k8s/errors.go].

    - Go strings are byte strings: [string].
    - Slices are lists; a nil slice and an empty slice are both [[]].
      [[]*Volume] and [[]*File] are modelled with non-nil elements
      (a nil element makes the Go code panic on the first field access).
    - [map[string]string] and [map[string]bool] are [gmap string _].
    - [int64] fields are [Z]; loop indices are [nat].
    - An [error] that may be nil is an [option error] ([None] is [nil]).
      A Go function returning a pointer and an error returns a [result],
      the pointer or the error; one returning a bool or a string with an
      error returns the pair, as the code sets both components.
    - Platform and environment calls are the operations of the class
      [Cluster] over an abstract state; the client operations thread that
      state together with the list of calls made.
    - [waitForPodDeletion] loops until the platform answers; its model takes
      the number of polls allowed and returns [None] when they are used up.
    - [PodConfig.Name] and [PodConfig.ContainerConfig] are the fields
      [PodName] and [PodContainerConfig]; fields of [v1] records that share a
      name carry the record's name in front.
    - Logging through [c.logger] has no effect on results and is left out. *)

From Stdlib Require Import ZArith String Ascii List Bool Decimal DecimalString DecimalNat Lia.
From stdpp Require Import base option list gmap strings fin_maps.

Local Open Scope string_scope.
Local Open Scope list_scope.

(** ** Go library functions used by the package *)

Module strings.

(** [strings.HasPrefix(s, prefix)]: [len(s) >= len(prefix) && s[:len(prefix)] == prefix]. *)
Fixpoint HasPrefix (s pre : string) : bool :=
  match pre with
  | EmptyString => true
  | String c pre' =>
      match s with
      | EmptyString => false
      | String d s' => if Ascii.eqb d c then HasPrefix s' pre' else false
      end
  end.

(** [strings.TrimLeft(s, cutset)]: drops the leading bytes of [s] that occur in [cutset]. *)
Fixpoint inCutset (c : ascii) (cutset : string) : bool :=
  match cutset with
  | EmptyString => false
  | String d rest => Ascii.eqb c d || inCutset c rest
  end.

Fixpoint TrimLeft (s cutset : string) : string :=
  match s with
  | EmptyString => EmptyString
  | String c s' => if inCutset c cutset then TrimLeft s' cutset else s
  end.

(** [strings.Join(elems, sep)]. *)
Fixpoint Join (elems : list string) (sep : string) : string :=
  match elems with
  | [] => EmptyString
  | [e] => e
  | e :: rest => e +:+ sep +:+ Join rest sep
  end.

End strings.

Module fmt.

(** [fmt.Sprintf("%d", n)] for a non-negative [int]. *)
Definition itoa (n : nat) : string := NilZero.string_of_uint (Nat.to_uint n).

(** [fmt.Sprintf("%d", z)] for an [int64]. *)
Definition itoa64 (z : Z) : string := NilZero.string_of_int (Z.to_int z).

End fmt.

Module filepath.

(** Unix [path/filepath]: the separator is [/] and there are no volume names. *)
Definition Separator : ascii := "/"%char.

(** The elements of a path between separators, empty elements included. *)
Fixpoint elements (cur : string) (path : string) : list string :=
  match path with
  | EmptyString => [cur]
  | String c rest =>
      if Ascii.eqb c Separator then cur :: elements EmptyString rest
      else elements (cur +:+ String c EmptyString) rest
  end.

(** One element of the path against the elements written so far (innermost
    first).  Empty and [.] elements are dropped; [..] removes the last real
    element, is kept in front of a relative path, and is dropped at the root. *)
Definition cleanStep (rooted : bool) (out : list string) (elem : string) : list string :=
  if String.eqb elem EmptyString then out
  else if String.eqb elem "." then out
  else if String.eqb elem ".." then
    match out with
    | top :: below =>
        if String.eqb top ".." then elem :: out else below
    | [] => if rooted then out else [elem]
    end
  else elem :: out.

(** [filepath.Clean(path)]. *)
Definition Clean (path : string) : string :=
  match path with
  | EmptyString => "."
  | String c _ =>
      let rooted := Ascii.eqb c Separator in
      let out := rev (fold_left (cleanStep rooted) (elements EmptyString path) []) in
      if rooted then String Separator (strings.Join out "/")
      else match out with
           | [] => "."
           | _ => strings.Join out "/"
           end
  end.

(** The prefix of [path] up to and including its last separator. *)
Fixpoint upToLastSeparator (path : string) : string :=
  match path with
  | EmptyString => EmptyString
  | String c rest =>
      let r := upToLastSeparator rest in
      if Ascii.eqb c Separator then String c r
      else match r with
           | EmptyString => EmptyString
           | _ => String c r
           end
  end.

(** [filepath.Dir(path)]. *)
Definition Dir (path : string) : string := Clean (upToLastSeparator path).

(** [filepath.Join(elem...)]: the elements from the first non-empty one on are
    joined with the separator and cleaned; all empty gives the empty string. *)
Fixpoint Join (elem : list string) : string :=
  match elem with
  | [] => EmptyString
  | e :: rest =>
      if String.eqb e EmptyString then Join rest
      else Clean (strings.Join elem "/")
  end.

End filepath.

(** ** Platform object types ([k8s.io/api/core/v1], as far as the package fills them) *)

Module v1.

Record EnvVar := { EnvVar_Name : string; EnvVar_Value : string }.

Record VolumeMount := {
  VolumeMount_Name : string;
  MountPath : string;
  SubPath : string
}.

Inductive VolumeSource :=
  | PersistentVolumeClaim (ClaimName : string)
  | ConfigMap (LocalObjectReference : string) (DefaultMode : Z).

Record Volume := { Volume_Name : string; Source : VolumeSource }.

Record SecurityContext := { RunAsUser : option Z }.

Record PodSecurityContext := { FSGroup : Z }.

(** [resource.Quantity], [v1.PullPolicy] and [v1.Probe] values are carried
    through unchanged; they are kept in their serialised form. *)
Definition Quantity := string.
Definition PullPolicy := string.
Definition Probe := string.

Record ResourceRequirements := {
  Requests : list (string * Quantity);
  Limits : list (string * Quantity)
}.

Record Container := {
  Container_Name : string;
  Container_Image : string;
  Container_ImagePullPolicy : PullPolicy;
  Container_Command : list string;
  Container_Args : list string;
  Container_Env : list EnvVar;
  VolumeMounts : list VolumeMount;
  Resources : ResourceRequirements;
  Container_LivenessProbe : option Probe;
  Container_ReadinessProbe : option Probe;
  Container_StartupProbe : option Probe;
  Container_SecurityContext : option SecurityContext
}.

Record PodSpec := {
  PodSpec_ServiceAccountName : string;
  PodSpec_SecurityContext : option PodSecurityContext;
  InitContainers : list Container;
  Containers : list Container;
  Volumes : list Volume
}.

Record ContainerStatus := { ContainerStatus_Name : string; Ready : bool }.

Record PodStatus := { ContainerStatuses : list ContainerStatus }.

Record ObjectMeta := {
  Meta_Namespace : string;
  Meta_Name : string;
  Meta_Labels : gmap string string;
  Meta_Annotations : gmap string string
}.

Record Pod := { Meta : ObjectMeta; Spec : PodSpec; Status : PodStatus }.

Definition ResourceMemory : string := "memory".
Definition ResourceCPU : string := "cpu".

End v1.

(** ** pod.go: constants and configuration types *)

(** knuuPath is the path where the knuu volume is mounted *)
Definition knuuPath : string := "/knuu".

(** 0777 *)
Definition defaultFileModeForVolume : Z := 511%Z.

Definition podFilesConfigmapNameSuffix : string := "-config".

Definition initContainerNameSuffix : string := "-init".
Definition defaultContainerUser : Z := 0%Z.

Record Volume := { Path : string; Size : v1.Quantity; Owner : Z }.

Record File := { Source : string; Dest : string }.

Record ContainerConfig := {
  Name : string;
  Image : string;
  ImagePullPolicy : v1.PullPolicy;
  Command : list string;
  Args : list string;
  Env : gmap string string;
  Volumes : list Volume;
  MemoryRequest : v1.Quantity;
  MemoryLimit : v1.Quantity;
  CPURequest : v1.Quantity;
  LivenessProbe : option v1.Probe;
  ReadinessProbe : option v1.Probe;
  StartupProbe : option v1.Probe;
  Files : list File;
  SecurityContext : option v1.SecurityContext
}.

Record PodConfig := {
  Namespace : string;
  PodName : string;
  Labels : gmap string string;
  ServiceAccountName : string;
  FsGroup : Z;
  PodContainerConfig : ContainerConfig;
  SidecarConfigs : list ContainerConfig;
  Annotations : gmap string string
}.

(** ** pod.go: the manifest builder and the data-seeding planner *)

(** [buildEnv]: one variable per entry of the map.  Go ranges over the map in
    no fixed order; [map_to_list] fixes one. *)
Definition buildEnv (envMap : gmap string string) : list v1.EnvVar :=
  map (fun kv => {| v1.EnvVar_Name := fst kv; v1.EnvVar_Value := snd kv |})
      (map_to_list envMap).

Definition buildPodVolumes (name : string) (volumesAmount filesAmount : nat)
  : list v1.Volume :=
  let podVolumes := [] in
  let podVolumes :=
    if negb (Nat.eqb volumesAmount 0)
    then podVolumes ++ [ {| v1.Volume_Name := name;
                            v1.Source := v1.PersistentVolumeClaim name |} ]
    else podVolumes in
  let podVolumes :=
    if negb (Nat.eqb filesAmount 0)
    then podVolumes ++ [ {| v1.Volume_Name := name +:+ podFilesConfigmapNameSuffix;
                            v1.Source := v1.ConfigMap name defaultFileModeForVolume |} ]
    else podVolumes in
  podVolumes.

(** The inner loop of [buildContainerVolumes]: [shouldAddFile] is cleared by
    the first volume whose path is a prefix of the file's destination. *)
Definition shouldAddFile (volumes : list Volume) (file : File) : bool :=
  negb (existsb (fun volume => strings.HasPrefix (Dest file) (Path volume)) volumes).

(** The mount of the [n]-th file, shared by both mount builders. *)
Definition fileMount (name : string) (n : nat) (file : File) : v1.VolumeMount :=
  {| v1.VolumeMount_Name := name +:+ podFilesConfigmapNameSuffix;
     v1.MountPath := Dest file;
     v1.SubPath := fmt.itoa n |}.

(** The mount of one volume. *)
Definition volumeMount (name : string) (volume : Volume) : v1.VolumeMount :=
  {| v1.VolumeMount_Name := name;
     v1.MountPath := Path volume;
     v1.SubPath := strings.TrimLeft (Path volume) "/" |}.

Definition buildContainerVolumes (name : string) (volumes : list Volume)
    (files : list File) : list v1.VolumeMount :=
  let containerVolumes :=
    fold_left (fun containerVolumes volume =>
      containerVolumes ++ [volumeMount name volume])
      volumes [] in
  let containerFiles :=
    fold_left (fun containerFiles nfile =>
      let '(n, file) := nfile in
      if shouldAddFile volumes file
      then containerFiles ++ [fileMount name n file]
      else containerFiles)
      (imap pair files) [] in
  containerVolumes ++ containerFiles.

Definition buildInitContainerVolumes (name : string) (volumes : list Volume)
    (files : list File) : list v1.VolumeMount :=
  if Nat.eqb (length volumes) 0 && Nat.eqb (length files) 0 then []
  else
    let containerVolumes :=
      [ {| v1.VolumeMount_Name := name; v1.MountPath := knuuPath; v1.SubPath := EmptyString |} ] in
    let containerFiles :=
      fold_left (fun containerFiles nfile =>
        let '(n, file) := nfile in
        containerFiles ++ [fileMount name n file])
        (imap pair files) [] in
    containerVolumes ++ containerFiles.

(** [parentDirCmd] for a folder: [knuuFolder] is the staging root and the
    folder, concatenated. *)
Definition parentDirCmd (folder : string) : string :=
  let knuuFolder := knuuPath +:+ folder in
  "mkdir -p " +:+ knuuFolder +:+ " && ".

(** [copyFileToKnuu] for a file. *)
Definition copyFileToKnuu (file : File) : string :=
  "cp " +:+ Dest file +:+ " " +:+ filepath.Join [knuuPath; Dest file] +:+ " && ".

(** The body of the file loop of [buildInitContainerCommand], on the pair
    [(cmds, dirsProcessed)]. *)
Definition stageFile (st : list string * gmap string bool) (file : File)
  : list string * gmap string bool :=
  let '(cmds, dirsProcessed) := st in
  let folder := filepath.Dir (Dest file) in
  let '(cmds, dirsProcessed) :=
    match dirsProcessed !! folder with
    | None => (cmds ++ [parentDirCmd folder], <[folder := true]> dirsProcessed)
    | Some _ => (cmds, dirsProcessed)
    end in
  (cmds ++ [copyFileToKnuu file], dirsProcessed).

(** The double-quote character of the volume command's format string. *)
Definition dquote : string := String (ascii_of_nat 34) EmptyString.

(** The command of the [i]-th volume; [len] is [len(volumes)]. *)
Definition volumeCmd (len : nat) (i : nat) (volume : Volume) : string :=
  let knuuVolumePath := knuuPath +:+ Path volume in
  let cmd :=
    "if [ -d " +:+ Path volume +:+ " ] && [ " +:+ dquote +:+ "$(ls -A " +:+ Path volume
      +:+ ")" +:+ dquote +:+ " ]; then mkdir -p " +:+ knuuVolumePath +:+ " && cp -r " +:+ Path volume
      +:+ "/* " +:+ knuuVolumePath +:+ " && chown -R " +:+ fmt.itoa64 (Owner volume)
      +:+ ":" +:+ fmt.itoa64 (Owner volume) +:+ " " +:+ knuuVolumePath in
  if (Z.of_nat i <? Z.of_nat len - 1)%Z then cmd +:+ " ;fi && " else cmd +:+ " ;fi".

(** The body of the volume loop. *)
Definition stageVolume (len : nat) (cmds : list string) (ivolume : nat * Volume)
  : list string :=
  let '(i, volume) := ivolume in
  cmds ++ [volumeCmd len i volume].

(** The commands the file loop appends when [dirsProcessed] holds the folders
    already handled: the loop unrolled, file by file. *)
Fixpoint fileCmds (dirsProcessed : gmap string bool) (files : list File) : list string :=
  match files with
  | [] => []
  | file :: rest =>
      let folder := filepath.Dir (Dest file) in
      match dirsProcessed !! folder with
      | None =>
          parentDirCmd folder :: copyFileToKnuu file
            :: fileCmds (<[folder := true]> dirsProcessed) rest
      | Some _ => copyFileToKnuu file :: fileCmds dirsProcessed rest
      end
  end.

(** The first byte of a command tells the kinds of command apart. *)
Definition firstByte (s : string) : option ascii :=
  match s with
  | String c _ => Some c
  | EmptyString => None
  end.

(** The list [cmds] that [buildInitContainerCommand] joins into the script. *)
Definition initContainerCmds (volumes : list Volume) (files : list File) : list string :=
  let dirsProcessed : gmap string bool := ∅ in
  let baseCmd := "set -xe && " in
  let createKnuuPath := "mkdir -p " +:+ knuuPath +:+ " && " in
  let cmds := [baseCmd; createKnuuPath] in
  let '(cmds, _) := fold_left stageFile files (cmds, dirsProcessed) in
  fold_left (stageVolume (length volumes)) (imap pair volumes) cmds.

Definition buildInitContainerCommand (volumes : list Volume) (files : list File)
  : list string :=
  let commands := ["sh"; "-c"] in
  let fullCommand := strings.Join (initContainerCmds volumes files) EmptyString in
  commands ++ [fullCommand].

Definition buildResources (memoryRequest memoryLimit cpuRequest : v1.Quantity)
  : v1.ResourceRequirements :=
  {| v1.Requests := [(v1.ResourceMemory, memoryRequest); (v1.ResourceCPU, cpuRequest)];
     v1.Limits := [(v1.ResourceMemory, memoryLimit)] |}.

Definition prepareContainer (config : ContainerConfig) : v1.Container :=
  {| v1.Container_Name := Name config;
     v1.Container_Image := Image config;
     v1.Container_ImagePullPolicy := ImagePullPolicy config;
     v1.Container_Command := Command config;
     v1.Container_Args := Args config;
     v1.Container_Env := buildEnv (Env config);
     v1.VolumeMounts := buildContainerVolumes (Name config) (Volumes config) (Files config);
     v1.Resources := buildResources (MemoryRequest config) (MemoryLimit config)
                       (CPURequest config);
     v1.Container_LivenessProbe := LivenessProbe config;
     v1.Container_ReadinessProbe := ReadinessProbe config;
     v1.Container_StartupProbe := StartupProbe config;
     v1.Container_SecurityContext := SecurityContext config |}.

Definition prepareInitContainers (config : ContainerConfig) (init : bool)
  : list v1.Container :=
  if negb init || Nat.eqb (length (Volumes config)) 0 then []
  else
    [ {| v1.Container_Name := Name config +:+ initContainerNameSuffix;
         v1.Container_Image := Image config;
         v1.Container_ImagePullPolicy := EmptyString;
         v1.Container_Command := buildInitContainerCommand (Volumes config) (Files config);
         v1.Container_Args := [];
         v1.Container_Env := [];
         v1.VolumeMounts :=
           buildInitContainerVolumes (Name config) (Volumes config) (Files config);
         v1.Resources := {| v1.Requests := []; v1.Limits := [] |};
         v1.Container_LivenessProbe := None;
         v1.Container_ReadinessProbe := None;
         v1.Container_StartupProbe := None;
         v1.Container_SecurityContext := Some {| v1.RunAsUser := Some defaultContainerUser |} |} ].

Definition preparePodVolumes (config : ContainerConfig) : list v1.Volume :=
  buildPodVolumes (Name config) (length (Volumes config)) (length (Files config)).

Definition preparePodSpec (spec : PodConfig) (init : bool) : v1.PodSpec :=
  let podSpec :=
    {| v1.PodSpec_ServiceAccountName := ServiceAccountName spec;
       v1.PodSpec_SecurityContext := Some {| v1.FSGroup := FsGroup spec |};
       v1.InitContainers := prepareInitContainers (PodContainerConfig spec) init;
       v1.Containers := [prepareContainer (PodContainerConfig spec)];
       v1.Volumes := preparePodVolumes (PodContainerConfig spec) |} in
  fold_left (fun podSpec sidecarConfig =>
      let sidecarContainer := prepareContainer sidecarConfig in
      let sidecarVolumes := preparePodVolumes sidecarConfig in
      {| v1.PodSpec_ServiceAccountName := v1.PodSpec_ServiceAccountName podSpec;
         v1.PodSpec_SecurityContext := v1.PodSpec_SecurityContext podSpec;
         v1.InitContainers := v1.InitContainers podSpec;
         v1.Containers := v1.Containers podSpec ++ [sidecarContainer];
         v1.Volumes := v1.Volumes podSpec ++ sidecarVolumes |})
    (SidecarConfigs spec) podSpec.

Definition preparePod (spec : PodConfig) (init : bool) : v1.Pod :=
  {| v1.Meta := {| v1.Meta_Namespace := Namespace spec;
                   v1.Meta_Name := PodName spec;
                   v1.Meta_Labels := Labels spec;
                   v1.Meta_Annotations := Annotations spec |};
     v1.Spec := preparePodSpec spec init;
     v1.Status := {| v1.ContainerStatuses := [] |} |}.

(** ** Errors *)

Module errors.

(** Reasons of a platform status error: [metav1.StatusReason] is a string
    type, with the empty string for an unknown reason. *)
Definition StatusReason := string.

Definition StatusReasonUnknown : StatusReason := EmptyString.
Definition StatusReasonNotFound : StatusReason := "NotFound".
Definition StatusReasonAlreadyExists : StatusReason := "AlreadyExists".

(** The reasons the library's error helpers know ([knownReasons] of
    [k8s.io/apimachinery/pkg/api/errors]); the unknown reason is not one. *)
Definition knownReasons : list StatusReason :=
  ["Unauthorized"; "Forbidden"; "NotFound"; "AlreadyExists"; "Conflict"; "Gone";
   "Invalid"; "ServerTimeout"; "Timeout"; "TooManyRequests"; "BadRequest";
   "MethodNotAllowed"; "NotAcceptable"; "RequestEntityTooLarge";
   "UnsupportedMediaType"; "InternalError"; "Expired"; "ServiceUnavailable"].

(** Go [error] values seen by the package: a platform status error, any other
    error of a library (context, transport, stream), or an error of the
    package's own [Error] type, which holds a code, a message with format
    verbs, the parameters for them, and the error it wraps. *)
#[warnings="-register-all"]
Inductive error :=
  | StatusError (reason : StatusReason) (code : Z) (message : string)
  | LibraryError (message : string)
  | PackageError (Code Message : string) (Params : list string) (Err : option error).

(** The package's [*Error] before it is returned as an [error]. *)
Record Error := {
  Code : string;
  Message : string;
  Params : list string;
  Err : option error
}.

Definition New (code message : string) : Error :=
  {| Code := code; Message := message; Params := []; Err := None |}.

Definition WithParams (e : Error) (params : list string) : Error :=
  {| Code := Code e; Message := Message e; Params := params; Err := Err e |}.

Definition asError (e : Error) : error :=
  PackageError (Code e) (Message e) (Params e) (Err e).

Definition Wrap (e : Error) (err : option error) : error :=
  PackageError (Code e) (Message e) (Params e) err.

(** The codes of the package errors along the chain of wrapped errors. *)
Fixpoint codes (err : error) : list string :=
  match err with
  | PackageError code _ _ (Some cause) => code :: codes cause
  | PackageError code _ _ None => [code]
  | _ => []
  end.

(** [errors.Is(err, target)] for a package error [target]: some error of the
    chain has the target's code. *)
Definition Is (err : error) (target : Error) : bool :=
  existsb (String.eqb (Code target)) (codes err).

End errors.

Abbreviation error := errors.error.

Module apierrs.

(** [apierrs.IsNotFound(err)]: the status reason is NotFound, or the reason is
    not one of the known reasons and the HTTP code is 404.  An error that is
    not a status error has the unknown reason and code 0, and is not
    not-found.  The package applies the test only to what [getPod] returns,
    which is never a wrapped error. *)
Definition IsNotFound (err : error) : bool :=
  match err with
  | errors.StatusError reason code _ =>
      String.eqb reason errors.StatusReasonNotFound
      || (negb (existsb (String.eqb reason) errors.knownReasons) && (code =? 404)%Z)
  | _ => false
  end.

End apierrs.

(** ** errors.go: the errors used by pod.go *)

Definition ErrGettingPod := errors.New "ErrorGettingPod" "failed to get pod %s".
Definition ErrCreatingPod := errors.New "ErrorCreatingPod" "failed to create pod".
Definition ErrDeletingPod := errors.New "ErrorDeletingPod" "failed to delete pod".
Definition ErrDeployingPod := errors.New "ErrorDeployingPod" "failed to deploy pod".
Definition ErrGettingK8sConfig := errors.New "ErrorGettingK8sConfig" "failed to get k8s config".
Definition ErrCreatingExecutor := errors.New "ErrorCreatingExecutor" "failed to create Executor".
Definition ErrExecutingCommand :=
  errors.New "ErrorExecutingCommand" "failed to execute command, stdout: `%v`, stderr: `%v`".
Definition ErrCommandExecution :=
  errors.New "ErrorCommandExecution" "error while executing command".
Definition ErrDeletingPodFailed := errors.New "ErrorDeletingPodFailed" "failed to delete pod %s".
Definition ErrGettingClusterConfig :=
  errors.New "ErrorGettingClusterConfig" "failed to get cluster config".
Definition ErrCreatingRoundTripper :=
  errors.New "ErrorCreatingRoundTripper" "failed to create round tripper".
Definition ErrCreatingPortForwarder :=
  errors.New "ErrorCreatingPortForwarder" "failed to create port forwarder".
Definition ErrPortForwarding := errors.New "ErrorPortForwarding" "failed to port forward: %v".
Definition ErrForwardingPorts := errors.New "ErrorForwardingPorts" "error forwarding ports".
Definition ErrPortForwardingTimeout :=
  errors.New "ErrorPortForwardingTimeout" "timed out waiting for port forwarding to be ready".
Definition ErrWaitingForPodDeletion :=
  errors.New "WaitingForPodDeletion" "waiting for pod %s to be deleted".
Definition ErrEmptyCommand := errors.New "EmptyCommand" "command cannot be empty".
Definition ErrInvalidPort :=
  errors.New "InvalidPort" "port number %d is out of valid range (1-65535)".

(** ** The client and its collaborators *)

Inductive result (A : Type) :=
  | Ok (a : A)
  | Err (err : error).
Arguments Ok {A} a.
Arguments Err {A} err.

(** The fields of [Client] that pod.go reads. *)
Record Client := { terminated : bool; namespace : string }.

(** [v1.PodExecOptions] as [RunCommandInPod] fills it. *)
Record PodExecOptions := {
  Exec_Pod : string;
  Exec_Namespace : string;
  Exec_Command : list string;
  Exec_Container : string;
  Exec_Stdin : bool;
  Exec_Stdout : bool;
  Exec_Stderr : bool;
  Exec_TTY : bool
}.

(** What [StreamWithContext] leaves behind: both buffers and its error. *)
Record StreamResult := {
  stdout : string;
  stderr : string;
  streamErr : option error
}.

(** The case of the [select] of [PortForwardPod] that fires: the ready channel,
    the error channel (with the value received, [None] for a nil error or a
    closed channel), or the timer. *)
Inductive SelectCase :=
  | CaseReady
  | CaseErr (err : option error)
  | CaseTimeout.

(** Durations, in nanoseconds as in Go's [time.Duration]. *)
Definition Duration := Z.

(** The orchestration platform and the environment, as the package calls
    them.  [W] is their state; every call returns its answer and the state
    after it.  Nothing is assumed about the answers. *)
Class Cluster (W : Type) := {
  (** [clientset.CoreV1().Pods(ns).Get(ctx, name, ...)] *)
  Pods_Get : string -> string -> W -> result v1.Pod * W;
  (** [clientset.CoreV1().Pods(ns).Create(ctx, pod, ...)] *)
  Pods_Create : string -> v1.Pod -> W -> result v1.Pod * W;
  (** [clientset.CoreV1().Pods(ns).Delete(ctx, name, {GracePeriodSeconds})] *)
  Pods_Delete : string -> string -> option Z -> W -> option error * W;
  (** [select { case <-ctx.Done(): ...ctx.Err() ; case <-time.After(d): }]:
      [Some err] when the context is done first, with [err = ctx.Err()]. *)
  Done_or_After : Duration -> W -> option error * W;
  (** [getClusterConfig()] *)
  getClusterConfig : W -> option error * W;
  (** [remotecommand.NewSPDYExecutor(config, POST, url)] *)
  NewSPDYExecutor : PodExecOptions -> W -> option error * W;
  (** [exec.StreamWithContext(ctx, {Stdout, Stderr, Tty: false})] *)
  StreamWithContext : PodExecOptions -> W -> StreamResult * W;
  (** [spdy.RoundTripperFor(restConfig)] *)
  RoundTripperFor : W -> option error * W;
  (** [portforward.New(dialer, ports, stopChan, readyChan, stdout, stderr)]:
      what it wrote to [stderr], and its error. *)
  portforward_New : string -> string -> list string -> W -> (string * option error) * W;
  (** The goroutine running [pf.ForwardPorts()] raced against the timer of
      the given duration. *)
  ForwardPorts_select : Duration -> W -> SelectCase * W
}.

(** The parts of package k8s that pod.go uses and that are declared in other
    files of the package. *)
Class Package := {
  retryInterval : Duration;
  waitRetry : Duration;
  ErrClientTerminated : errors.Error;
  validatePodConfig : PodConfig -> option error;
  validatePodName : string -> option error;
  validateContainerName : string -> option error;
  validateCommand : list string -> option error;
  validatePort : Z -> option error
}.

(** The calls made on the platform and the environment, with their answers. *)
Inductive Call :=
  | CallGet (ns name : string) (res : result v1.Pod)
  | CallCreate (ns : string) (pod : v1.Pod) (res : result v1.Pod)
  | CallDelete (ns name : string) (gracePeriodSeconds : option Z) (res : option error)
  | CallDoneOrAfter (d : Duration) (res : option error)
  | CallClusterConfig (res : option error)
  | CallNewExecutor (opts : PodExecOptions) (res : option error)
  | CallStream (opts : PodExecOptions) (res : StreamResult)
  | CallRoundTripper (res : option error)
  | CallNewForwarder (ns name : string) (ports : list string) (res : string * option error)
  | CallForwardPorts (timeout : Duration) (res : SelectCase).

(** A remote call reaches the platform; the others stay in the process. *)
Definition isRemote (call : Call) : bool :=
  match call with
  | CallGet _ _ _ | CallCreate _ _ _ | CallDelete _ _ _ _
  | CallStream _ _ | CallForwardPorts _ _ => true
  | _ => false
  end.

(** ** pod.go: the client operations *)

Section ClientOps.

Context {W : Type} `{!Cluster W} `{!Package}.

(** The state threaded through an operation: the platform and environment,
    and the calls made so far. *)
Record State := { world : W; calls : list Call }.

Definition M (A : Type) : Type := State -> A * State.

Definition ret {A} (a : A) : M A := fun s => (a, s).

Definition bind {A B} (m : M A) (k : A -> M B) : M B :=
  fun s => let '(a, s') := m s in k a s'.

Local Notation "'let*' x ':=' m 'in' k" := (bind m (fun x => k))
  (at level 10, x name, m at level 100, k at level 200).

(** One call: ask the platform, record the call with its answer. *)
Definition call {A} (ask : W -> A * W) (record : A -> Call) : M A :=
  fun s =>
    let '(a, w) := ask (world s) in
    (a, {| world := w; calls := calls s ++ [record a] |}).

Definition getPod (c : Client) (name : string) : M (result v1.Pod) :=
  if terminated c then ret (Err (errors.asError ErrClientTerminated))
  else call (Pods_Get (namespace c) name) (CallGet (namespace c) name).

(** DeployPod creates a new pod in the namespace that k8s client is initiate
    with if it doesn't already exist. *)
Definition DeployPod (c : Client) (podConfig : PodConfig) (init : bool)
  : M (result v1.Pod) :=
  if terminated c then ret (Err (errors.asError ErrClientTerminated))
  else
    match validatePodConfig podConfig with
    | Some err => ret (Err err)
    | None =>
        let pod := preparePod podConfig init in
        let* created := call (Pods_Create (namespace c) pod) (CallCreate (namespace c) pod) in
        match created with
        | Err err => ret (Err (errors.Wrap ErrCreatingPod (Some err)))
        | Ok createdPod => ret (Ok createdPod)
        end
    end.

Definition DeletePodWithGracePeriod (c : Client) (name : string)
    (gracePeriodSeconds : option Z) : M (option error) :=
  let* got := getPod c name in
  match got with
  | Err err =>
      (* If the pod does not exist, skip and return without error *)
      if apierrs.IsNotFound err then ret None else ret (Some err)
  | Ok _ =>
      let* deleted := call (Pods_Delete (namespace c) name gracePeriodSeconds)
                      (CallDelete (namespace c) name gracePeriodSeconds) in
      match deleted with
      | Some err =>
          ret (Some (errors.Wrap (errors.WithParams ErrDeletingPodFailed [name]) (Some err)))
      | None => ret None
      end
  end.

Definition DeletePod (c : Client) (name : string) : M (option error) :=
  DeletePodWithGracePeriod c name None.

(** The loop of [waitForPodDeletion].  [fuel] bounds the number of polls; the
    answer is [None] when the pod is still there after that many. *)
Fixpoint waitForPodDeletion (fuel : nat) (c : Client) (name : string)
  : M (option (option error)) :=
  match fuel with
  | O => ret None
  | S fuel' =>
      let* done := call (Done_or_After retryInterval) (CallDoneOrAfter retryInterval) in
      match done with
      | Some ctxErr => ret (Some (Some ctxErr))
      | None =>
          let* got := getPod c name in
          match got with
          | Err err =>
              if apierrs.IsNotFound err then ret (Some None)
              else ret (Some (Some (errors.Wrap
                         (errors.WithParams ErrWaitingForPodDeletion [name]) (Some err))))
          | Ok _ => waitForPodDeletion fuel' c name
          end
      end
  end.

Definition ReplacePodWithGracePeriod (fuel : nat) (c : Client) (podConfig : PodConfig)
    (gracePeriod : option Z) : M (option (result v1.Pod)) :=
  let* deleted := DeletePodWithGracePeriod c (PodName podConfig) gracePeriod in
  match deleted with
  | Some err => ret (Some (Err (errors.Wrap ErrDeletingPod (Some err))))
  | None =>
      let* waited := waitForPodDeletion fuel c (PodName podConfig) in
      match waited with
      | None => ret None
      | Some (Some err) =>
          ret (Some (Err (errors.Wrap
                 (errors.WithParams ErrWaitingForPodDeletion [PodName podConfig]) (Some err))))
      | Some None =>
          let* deployed := DeployPod c podConfig false in
          match deployed with
          | Err err => ret (Some (Err (errors.Wrap ErrDeployingPod (Some err))))
          | Ok pod => ret (Some (Ok pod))
          end
      end
  end.

(** ReplacePod replaces a pod and returns the new Pod object. *)
Definition ReplacePod (fuel : nat) (c : Client) (podConfig : PodConfig)
  : M (option (result v1.Pod)) :=
  ReplacePodWithGracePeriod fuel c podConfig None.

(** IsPodRunning returns true if all containers in the pod are running. *)
Definition IsPodRunning (c : Client) (name : string) : M (bool * option error) :=
  let* got := getPod c name in
  match got with
  | Err err =>
      ret (false, Some (errors.Wrap (errors.WithParams ErrGettingPod [name]) (Some err)))
  | Ok pod =>
      (* Check if all container are running *)
      ret (forallb v1.Ready (v1.ContainerStatuses (v1.Status pod)), None)
  end.

(** The exec request of [RunCommandInPod]. *)
Definition execRequest (c : Client) (podName containerName : string) (cmd : list string)
  : PodExecOptions :=
  {| Exec_Pod := podName; Exec_Namespace := namespace c;
     Exec_Command := cmd; Exec_Container := containerName;
     Exec_Stdin := false; Exec_Stdout := true;
     Exec_Stderr := true; Exec_TTY := false |}.

(** The port pair of [PortForwardPod]. *)
Definition forwardedPorts (localPort remotePort : Z) : list string :=
  [fmt.itoa64 localPort +:+ ":" +:+ fmt.itoa64 remotePort].

(** RunCommandInPod runs a command in a container within a pod with a context. *)
Definition RunCommandInPod (c : Client) (podName containerName : string)
    (cmd : list string) : M (string * option error) :=
  match validatePodName podName with
  | Some err => ret (EmptyString, Some err)
  | None =>
  match validateContainerName containerName with
  | Some err => ret (EmptyString, Some err)
  | None =>
  match validateCommand cmd with
  | Some err => ret (EmptyString, Some err)
  | None =>
  let* got := getPod c podName in
  match got with
  | Err err =>
      ret (EmptyString,
           Some (errors.Wrap (errors.WithParams ErrGettingPod [podName]) (Some err)))
  | Ok _ =>
  let req := execRequest c podName containerName cmd in
  (* Create an executor for the command execution *)
  let* cfg := call getClusterConfig CallClusterConfig in
  match cfg with
  | Some err => ret (EmptyString, Some (errors.Wrap ErrGettingK8sConfig (Some err)))
  | None =>
  let* exec := call (NewSPDYExecutor req) (CallNewExecutor req) in
  match exec with
  | Some err => ret (EmptyString, Some (errors.Wrap ErrCreatingExecutor (Some err)))
  | None =>
  (* Execute the command and capture the output and error streams *)
  let* out := call (StreamWithContext req) (CallStream req) in
  match streamErr out with
  | Some err =>
      ret (EmptyString,
           Some (errors.Wrap
                   (errors.WithParams ErrExecutingCommand [stdout out; stderr out])
                   (Some err)))
  | None =>
      (* Check if there were any errors on the error stream *)
      if negb (Nat.eqb (String.length (stderr out)) 0)
      then ret (EmptyString,
                Some (errors.asError
                        (errors.WithParams ErrCommandExecution [stdout out; stderr out])))
      else ret (stdout out, None)
  end end end end end end end.

(** The result of [PortForwardPod] for each case of its [select]. *)
Definition selectResult (fired : SelectCase) : option error :=
  match fired with
  | CaseReady => None
  | CaseErr err => Some (errors.Wrap ErrForwardingPorts err)
  | CaseTimeout => Some (errors.asError ErrPortForwardingTimeout)
  end.

(** PortForwardPod forwards a local port to a port on a pod. *)
Definition PortForwardPod (c : Client) (podName : string) (localPort remotePort : Z)
  : M (option error) :=
  match validatePodName podName with
  | Some err => ret (Some err)
  | None =>
  match validatePort localPort with
  | Some err => ret (Some err)
  | None =>
  match validatePort remotePort with
  | Some err => ret (Some err)
  | None =>
  let* got := getPod c podName in
  match got with
  | Err err => ret (Some (errors.Wrap (errors.WithParams ErrGettingPod [podName]) (Some err)))
  | Ok _ =>
  let* restConfig := call getClusterConfig CallClusterConfig in
  match restConfig with
  | Some err => ret (Some (errors.Wrap ErrGettingClusterConfig (Some err)))
  | None =>
  let* transport := call RoundTripperFor CallRoundTripper in
  match transport with
  | Some err => ret (Some (errors.Wrap ErrCreatingRoundTripper (Some err)))
  | None =>
  let ports := forwardedPorts localPort remotePort in
  (* Create a new PortForwarder *)
  let* pf := call (portforward_New (namespace c) podName ports)
             (CallNewForwarder (namespace c) podName ports) in
  let '(stderr, err) := pf in
  match err with
  | Some err => ret (Some (errors.Wrap ErrCreatingPortForwarder (Some err)))
  | None =>
  if (0 <? String.length stderr)%nat
  then ret (Some (errors.asError (errors.WithParams ErrPortForwarding [stderr])))
  else
    (* Start the port forwarding, and wait for it to be ready or error to occur *)
    let timeout := (waitRetry * 2)%Z in
    let* fired := call (ForwardPorts_select timeout) (CallForwardPorts timeout) in
    ret (selectResult fired)
  end end end end end end end.

End ClientOps.

Arguments State W : clear implicits.
Arguments M W A : clear implicits.

(** ** PortForwardPod: the goroutine and the select, step by step

    Lines 301-347 of pod.go start one goroutine that runs
    [pf.ForwardPorts()] and then either sends its error on the unbuffered
    [errChan] or closes [errChan]; the caller waits in a [select] on
    [readyChan], [errChan] and a timer of [waitRetry * 2].  [stopChan] is
    created and handed to the forwarder; the function has no statement
    that sends on it or closes it. *)

Module Race.

Inductive Goroutine :=
  | Forwarding              (* inside pf.ForwardPorts() *)
  | Sending (err : error)   (* at [errChan <- err], waiting for a receiver *)
  | Exited.                 (* returned, after the send or after close(errChan) *)

Inductive Caller :=
  | Selecting
  | Returned (res : option error).

Record State := {
  caller : Caller;
  goroutine : Goroutine;
  readyClosed : bool;     (* readyChan has been closed by the forwarder *)
  errClosed : bool;       (* errChan has been closed by the goroutine *)
  stopSignalled : bool;   (* something was sent on stopChan, or it was closed *)
  elapsed : Duration      (* time since the select started *)
}.

Definition init : State :=
  {| caller := Selecting; goroutine := Forwarding; readyClosed := false;
     errClosed := false; stopSignalled := false; elapsed := 0%Z |}.

Inductive Action :=
  | Elapse (d : Duration)               (* time passes *)
  | RemoteReady                         (* the forwarder closes readyChan *)
  | ForwardReturns (err : option error) (* pf.ForwardPorts() returns err *)
  | FireReady                           (* case <-readyChan *)
  | FireErr                             (* case err := <-errChan *)
  | FireTimeout.                        (* case <-time.After(waitRetry * 2) *)

Section Steps.

Context `{!Package}.

Definition setCaller (s : State) (c : Caller) : State :=
  {| caller := c; goroutine := goroutine s; readyClosed := readyClosed s;
     errClosed := errClosed s; stopSignalled := stopSignalled s; elapsed := elapsed s |}.

Definition setGoroutine (s : State) (g : Goroutine) (closed : bool) : State :=
  {| caller := caller s; goroutine := g; readyClosed := readyClosed s;
     errClosed := closed; stopSignalled := stopSignalled s; elapsed := elapsed s |}.

(** One step; [None] when the action cannot happen in the state. *)
Definition step (a : Action) (s : State) : option State :=
  match a with
  | Elapse d =>
      if (0 <=? d)%Z
      then Some {| caller := caller s; goroutine := goroutine s;
                   readyClosed := readyClosed s; errClosed := errClosed s;
                   stopSignalled := stopSignalled s; elapsed := (elapsed s + d)%Z |}
      else None
  | RemoteReady =>
      match goroutine s with
      | Forwarding =>
          Some {| caller := caller s; goroutine := goroutine s; readyClosed := true;
                  errClosed := errClosed s; stopSignalled := stopSignalled s;
                  elapsed := elapsed s |}
      | _ => None
      end
  | ForwardReturns (Some err) =>
      match goroutine s with
      | Forwarding => Some (setGoroutine s (Sending err) (errClosed s))
      | _ => None
      end
  | ForwardReturns None =>
      match goroutine s with
      | Forwarding => Some (setGoroutine s Exited true)
      | _ => None
      end
  | FireReady =>
      match caller s with
      | Selecting =>
          if readyClosed s then Some (setCaller s (Returned (selectResult CaseReady)))
          else None
      | Returned _ => None
      end
  | FireErr =>
      match caller s with
      | Selecting =>
          match goroutine s with
          | Sending err =>
              Some (setCaller (setGoroutine s Exited (errClosed s))
                      (Returned (selectResult (CaseErr (Some err)))))
          | _ =>
              if errClosed s then Some (setCaller s (Returned (selectResult (CaseErr None))))
              else None
          end
      | Returned _ => None
      end
  | FireTimeout =>
      match caller s with
      | Selecting =>
          if (waitRetry * 2 <=? elapsed s)%Z
          then Some (setCaller s (Returned (selectResult CaseTimeout)))
          else None
      | Returned _ => None
      end
  end.

(** A schedule, action by action. *)
Fixpoint run (schedule : list Action) (s : State) : option State :=
  match schedule with
  | [] => Some s
  | a :: rest =>
      match step a s with
      | Some s' => run rest s'
      | None => None
      end
  end.

(** What holds of a state once the caller has returned with [res]: the ready
    channel is closed, or an error was received, or the timer has run out. *)
Definition returnedBy (st : State) (res : option error) : Prop :=
  (res = None /\ readyClosed st = true)
  \/ (exists err, res = Some (errors.Wrap ErrForwardingPorts err))
  \/ (res = Some (errors.asError ErrPortForwardingTimeout)
      /\ (waitRetry * 2 <= elapsed st)%Z).

End Steps.

End Race.

(** ** The call sequences of ReplacePodWithGracePeriod

    The calls of each phase of a replacement together with what the phase
    returns, read off [DeletePodWithGracePeriod], [waitForPodDeletion] and
    [DeployPod]. *)

Section Phases.

Context {W : Type} `{!Cluster W} `{!Package}.

(** [DeletePodWithGracePeriod]: no call on a terminated client; otherwise the
    Get, and the Delete when the Get found the pod. *)
Inductive DeletePhase (c : Client) (name : string) (grace : option Z)
  : list Call -> option error -> Prop :=
  | Delete_terminated :
      terminated c = true ->
      DeletePhase c name grace [] (Some (errors.asError ErrClientTerminated))
  | Delete_absent err :
      terminated c = false ->
      apierrs.IsNotFound err = true ->
      DeletePhase c name grace [CallGet (namespace c) name (Err err)] None
  | Delete_get_failed err :
      terminated c = false ->
      apierrs.IsNotFound err = false ->
      DeletePhase c name grace [CallGet (namespace c) name (Err err)] (Some err)
  | Delete_done pod :
      terminated c = false ->
      DeletePhase c name grace
        [CallGet (namespace c) name (Ok pod); CallDelete (namespace c) name grace None]
        None
  | Delete_failed pod err :
      terminated c = false ->
      DeletePhase c name grace
        [CallGet (namespace c) name (Ok pod);
         CallDelete (namespace c) name grace (Some err)]
        (Some (errors.Wrap (errors.WithParams ErrDeletingPodFailed [name]) (Some err))).

(** [waitForPodDeletion] on a client that is not terminated, within a number
    of polls: every poll is one wait of [retryInterval] followed, when the
    context is not done, by one Get by name; a poll that finds the pod is
    followed by the next poll.  The answer [None] stands for a wait that has
    not ended after that many polls, each of which found the pod. *)
Inductive AwaitPhase (c : Client) (name : string)
  : nat -> list Call -> option (option error) -> Prop :=
  | Await_unfinished :
      AwaitPhase c name 0 [] None
  | Await_cancelled polls ctxErr :
      AwaitPhase c name (S polls)
        [CallDoneOrAfter retryInterval (Some ctxErr)] (Some (Some ctxErr))
  | Await_absent polls err :
      apierrs.IsNotFound err = true ->
      AwaitPhase c name (S polls)
        [CallDoneOrAfter retryInterval None; CallGet (namespace c) name (Err err)]
        (Some None)
  | Await_get_failed polls err :
      apierrs.IsNotFound err = false ->
      AwaitPhase c name (S polls)
        [CallDoneOrAfter retryInterval None; CallGet (namespace c) name (Err err)]
        (Some (Some (errors.Wrap
                 (errors.WithParams ErrWaitingForPodDeletion [name]) (Some err))))
  | Await_present polls pod made res :
      AwaitPhase c name polls made res ->
      AwaitPhase c name (S polls)
        (CallDoneOrAfter retryInterval None :: CallGet (namespace c) name (Ok pod) :: made)
        res.

(** [DeployPod]: no call on a terminated client or for a configuration that
    does not validate; otherwise the Create of the manifest. *)
Inductive DeployPhase (c : Client) (podConfig : PodConfig) (init : bool)
  : list Call -> result v1.Pod -> Prop :=
  | Deploy_terminated :
      terminated c = true ->
      DeployPhase c podConfig init [] (Err (errors.asError ErrClientTerminated))
  | Deploy_invalid err :
      terminated c = false ->
      validatePodConfig podConfig = Some err ->
      DeployPhase c podConfig init [] (Err err)
  | Deploy_created pod :
      terminated c = false ->
      validatePodConfig podConfig = None ->
      DeployPhase c podConfig init
        [CallCreate (namespace c) (preparePod podConfig init) (Ok pod)] (Ok pod)
  | Deploy_rejected err :
      terminated c = false ->
      validatePodConfig podConfig = None ->
      DeployPhase c podConfig init
        [CallCreate (namespace c) (preparePod podConfig init) (Err err)]
        (Err (errors.Wrap ErrCreatingPod (Some err))).

(** [ReplacePodWithGracePeriod]: the delete phase; when it returned nil, the
    await phase; when that returned nil, the deploy phase with the seeding
    flag off. *)
Inductive ReplacePhases (polls : nat) (c : Client) (podConfig : PodConfig)
    (grace : option Z) : list Call -> option (result v1.Pod) -> Prop :=
  | Replace_delete_failed deleteCalls err :
      DeletePhase c (PodName podConfig) grace deleteCalls (Some err) ->
      ReplacePhases polls c podConfig grace deleteCalls
        (Some (Err (errors.Wrap ErrDeletingPod (Some err))))
  | Replace_unfinished deleteCalls awaitCalls :
      DeletePhase c (PodName podConfig) grace deleteCalls None ->
      AwaitPhase c (PodName podConfig) polls awaitCalls None ->
      ReplacePhases polls c podConfig grace (deleteCalls ++ awaitCalls) None
  | Replace_await_failed deleteCalls awaitCalls err :
      DeletePhase c (PodName podConfig) grace deleteCalls None ->
      AwaitPhase c (PodName podConfig) polls awaitCalls (Some (Some err)) ->
      ReplacePhases polls c podConfig grace (deleteCalls ++ awaitCalls)
        (Some (Err (errors.Wrap
                 (errors.WithParams ErrWaitingForPodDeletion [PodName podConfig])
                 (Some err))))
  | Replace_deploy_failed deleteCalls awaitCalls deployCalls err :
      DeletePhase c (PodName podConfig) grace deleteCalls None ->
      AwaitPhase c (PodName podConfig) polls awaitCalls (Some None) ->
      DeployPhase c podConfig false deployCalls (Err err) ->
      ReplacePhases polls c podConfig grace (deleteCalls ++ awaitCalls ++ deployCalls)
        (Some (Err (errors.Wrap ErrDeployingPod (Some err))))
  | Replace_deployed deleteCalls awaitCalls deployCalls pod :
      DeletePhase c (PodName podConfig) grace deleteCalls None ->
      AwaitPhase c (PodName podConfig) polls awaitCalls (Some None) ->
      DeployPhase c podConfig false deployCalls (Ok pod) ->
      ReplacePhases polls c podConfig grace (deleteCalls ++ awaitCalls ++ deployCalls)
        (Some (Ok pod)).



End Phases.

(** The answer recorded with a call is a failure. *)
Definition callFailed (call : Call) : bool :=
  match call with
  | CallGet _ _ (Err _) | CallCreate _ _ (Err _) => true
  | CallDelete _ _ _ (Some _) | CallDoneOrAfter _ (Some _) => true
  | CallClusterConfig (Some _) | CallNewExecutor _ (Some _) => true
  | CallRoundTripper (Some _) => true
  | CallStream _ out =>
      match streamErr out with
      | Some _ => true
      | None => negb (Nat.eqb (String.length (stderr out)) 0)
      end
  | CallNewForwarder _ _ _ (stderr, err) =>
      match err with
      | Some _ => true
      | None => (0 <? String.length stderr)%nat
      end
  | CallForwardPorts _ fired =>
      match fired with CaseReady => false | _ => true end
  | _ => false
  end.

(** ** A platform and a package instance for examples *)

Module Example.

(** A platform that keeps its pods in a map by name, deletes at once, and
    plays back fixed answers for streams and port forwarding. *)
Record World := {
  pods : gmap string v1.Pod;
  ctxErr : option error;
  streamAnswer : StreamResult;
  forwardAnswer : SelectCase
}.

Definition notFound (name : string) : error :=
  errors.StatusError errors.StatusReasonNotFound 404%Z ("pods " +:+ name +:+ " not found").

Definition alreadyExists (name : string) : error :=
  errors.StatusError errors.StatusReasonAlreadyExists 409%Z
    ("pods " +:+ name +:+ " already exists").

Definition setPods (w : World) (ps : gmap string v1.Pod) : World :=
  {| pods := ps; ctxErr := ctxErr w; streamAnswer := streamAnswer w;
     forwardAnswer := forwardAnswer w |}.

#[global] Instance cluster : Cluster World := {
  Pods_Get _ name w :=
    (match pods w !! name with Some pod => Ok pod | None => Err (notFound name) end, w);
  Pods_Create _ pod w :=
    let name := v1.Meta_Name (v1.Meta pod) in
    match pods w !! name with
    | Some _ => (Err (alreadyExists name), w)
    | None => (Ok pod, setPods w (<[name := pod]> (pods w)))
    end;
  Pods_Delete _ name _ w :=
    match pods w !! name with
    | Some _ => (None, setPods w (delete name (pods w)))
    | None => (Some (notFound name), w)
    end;
  Done_or_After _ w := (ctxErr w, w);
  getClusterConfig w := (None, w);
  NewSPDYExecutor _ w := (None, w);
  StreamWithContext _ w := (streamAnswer w, w);
  RoundTripperFor w := (None, w);
  portforward_New _ _ _ w := ((EmptyString, None), w);
  ForwardPorts_select _ w := (forwardAnswer w, w)
}.

(** A package instance: names must be non-empty, commands non-empty, ports
    within 1-65535 (the range named by [ErrInvalidPort]). *)
Definition ErrInvalidPodName := errors.New "InvalidPodName" "invalid pod name %s: %v".
Definition ErrInvalidContainerName :=
  errors.New "InvalidContainerName" "invalid container name %s: %v".

#[global] Instance package : Package := {
  retryInterval := 100000000%Z;
  waitRetry := 5000000000%Z;
  ErrClientTerminated := errors.New "ClientTerminated" "terminated by user";
  validatePodConfig cfg :=
    if String.eqb (PodName cfg) EmptyString
    then Some (errors.asError (errors.WithParams ErrInvalidPodName [PodName cfg]))
    else None;
  validatePodName name :=
    if String.eqb name EmptyString
    then Some (errors.asError (errors.WithParams ErrInvalidPodName [name]))
    else None;
  validateContainerName name :=
    if String.eqb name EmptyString
    then Some (errors.asError (errors.WithParams ErrInvalidContainerName [name]))
    else None;
  validateCommand cmd :=
    match cmd with
    | [] => Some (errors.asError ErrEmptyCommand)
    | _ => None
    end;
  validatePort port :=
    if ((port <? 1) || (65535 <? port))%Z
    then Some (errors.asError (errors.WithParams ErrInvalidPort [fmt.itoa64 port]))
    else None
}.

Definition emptyWorld : World :=
  {| pods := ∅; ctxErr := None;
     streamAnswer := {| stdout := "ok"; stderr := EmptyString; streamErr := None |};
     forwardAnswer := CaseReady |}.

Definition start (w : World) : State World := {| world := w; calls := [] |}.

(** A pod named validator-0 whose only container is ready. *)
Definition runningPod : v1.Pod :=
  {| v1.Meta := {| v1.Meta_Namespace := "test"; v1.Meta_Name := "validator-0";
                   v1.Meta_Labels := ∅; v1.Meta_Annotations := ∅ |};
     v1.Spec := {| v1.PodSpec_ServiceAccountName := "default";
                   v1.PodSpec_SecurityContext := None;
                   v1.InitContainers := []; v1.Containers := []; v1.Volumes := [] |};
     v1.Status :=
       {| v1.ContainerStatuses :=
            [ {| v1.ContainerStatus_Name := "validator-0"; v1.Ready := true |} ] |} |}.

Definition runningWorld : World :=
  {| pods := {[ "validator-0" := runningPod ]}; ctxErr := None;
     streamAnswer := {| stdout := "ok"; stderr := EmptyString; streamErr := None |};
     forwardAnswer := CaseTimeout |}.

Definition lostConnection : error := errors.LibraryError "lost connection to pod".

(** The race after the timer fired and the forwarder then lost its
    connection. *)
Definition leaked : Race.State :=
  {| Race.caller := Race.Returned (Some (errors.asError ErrPortForwardingTimeout));
     Race.goroutine := Race.Sending lostConnection;
     Race.readyClosed := false; Race.errClosed := false;
     Race.stopSignalled := false; Race.elapsed := (waitRetry * 2)%Z |}.

Definition active : Client := {| terminated := false; namespace := "test" |}.
Definition stopped : Client := {| terminated := true; namespace := "test" |}.

Definition dataVolume : Volume := {| Path := "/data"; Size := "1Gi"; Owner := 1000%Z |}.
Definition cfgFile : File := {| Source := "/tmp/cfg.toml"; Dest := "/data/cfg.toml" |}.
Definition keyFile : File := {| Source := "/tmp/key.json"; Dest := "/etc/app/key.json" |}.
Definition certFile : File := {| Source := "/tmp/cert.pem"; Dest := "/etc/app/cert.pem" |}.

Definition container (volumes : list Volume) (files : list File) : ContainerConfig :=
  {| Name := "validator-0"; Image := "alpine:3"; ImagePullPolicy := "IfNotPresent";
     Command := ["sleep"]; Args := ["infinity"]; Env := ∅;
     Volumes := volumes; MemoryRequest := "64Mi"; MemoryLimit := "128Mi";
     CPURequest := "100m"; LivenessProbe := None; ReadinessProbe := None;
     StartupProbe := None; Files := files; SecurityContext := None |}.

Definition podConfig (volumes : list Volume) (files : list File) : PodConfig :=
  {| Namespace := "test"; PodName := "validator-0"; Labels := ∅;
     ServiceAccountName := "default"; FsGroup := 0%Z;
     PodContainerConfig := container volumes files;
     SidecarConfigs := []; Annotations := ∅ |}.

(** The running pod's platform with the forwarder answering ready. *)
Definition readyWorld : World :=
  {| pods := {[ "validator-0" := runningPod ]}; ctxErr := None;
     streamAnswer := {| stdout := "ok"; stderr := EmptyString; streamErr := None |};
     forwardAnswer := CaseReady |}.

(** A pod that has been accepted and reports no container status yet. *)
Definition pendingPod : v1.Pod :=
  {| v1.Meta := v1.Meta runningPod; v1.Spec := v1.Spec runningPod;
     v1.Status := {| v1.ContainerStatuses := [] |} |}.

Definition pendingWorld : World :=
  {| pods := {[ "validator-0" := pendingPod ]}; ctxErr := None;
     streamAnswer := {| stdout := "ok"; stderr := EmptyString; streamErr := None |};
     forwardAnswer := CaseReady |}.



(** A platform with one pod slot on which a deleted pod is still returned by
    the next [leaving] Gets before it is gone, as with a grace period. *)
Record Terminating := {
  slot : option v1.Pod;
  leaving : option nat
}.

#[global] Instance terminatingCluster : Cluster Terminating | 100 := {
  Pods_Get _ name w :=
    match slot w with
    | None => (Err (notFound name), w)
    | Some pod =>
        match leaving w with
        | None => (Ok pod, w)
        | Some (S n) => (Ok pod, {| slot := Some pod; leaving := Some n |})
        | Some O => (Err (notFound name), {| slot := None; leaving := None |})
        end
    end;
  Pods_Create _ pod w :=
    match slot w with
    | Some _ => (Err (alreadyExists (v1.Meta_Name (v1.Meta pod))), w)
    | None => (Ok pod, {| slot := Some pod; leaving := None |})
    end;
  Pods_Delete _ name _ w :=
    match slot w with
    | Some pod => (None, {| slot := Some pod; leaving := Some 2 |})
    | None => (Some (notFound name), w)
    end;
  Done_or_After _ w := (None, w);
  getClusterConfig w := (None, w);
  NewSPDYExecutor _ w := (None, w);
  StreamWithContext _ w :=
    ({| stdout := "ok"; stderr := EmptyString; streamErr := None |}, w);
  RoundTripperFor w := (None, w);
  portforward_New _ _ _ w := ((EmptyString, None), w);
  ForwardPorts_select _ w := (CaseReady, w)
}.


End Example.

(** ** Notions used in statements about the rest of pod.go *)

(** [s] consists of separators only. *)
Fixpoint allSlashes (s : string) : bool :=
  match s with
  | EmptyString => true
  | String c rest => Ascii.eqb c "/" && allSlashes rest
  end.

(** The operation a call belongs to, without its arguments and answer. *)
Inductive CallKind :=
  | KGet | KCreate | KDelete | KDoneOrAfter | KClusterConfig
  | KNewExecutor | KStream | KRoundTripper | KNewForwarder | KForwardPorts.

Definition callKind (call : Call) : CallKind :=
  match call with
  | CallGet _ _ _ => KGet
  | CallCreate _ _ _ => KCreate
  | CallDelete _ _ _ _ => KDelete
  | CallDoneOrAfter _ _ => KDoneOrAfter
  | CallClusterConfig _ => KClusterConfig
  | CallNewExecutor _ _ => KNewExecutor
  | CallStream _ _ => KStream
  | CallRoundTripper _ => KRoundTripper
  | CallNewForwarder _ _ _ _ => KNewForwarder
  | CallForwardPorts _ _ => KForwardPorts
  end.






(** The command starts with the byte [c], as the copy commands do. *)
Definition startsWithCp (cmd : string) : bool :=
  match firstByte cmd with
  | Some c => Ascii.eqb c "c"
  | None => false
  end.

(** [NewVolume] and [NewFile]. *)
Definition NewVolume (path : string) (size : v1.Quantity) (owner : Z) : Volume :=
  {| Path := path; Size := size; Owner := owner |}.

Definition NewFile (source dest : string) : File :=
  {| Source := source; Dest := dest |}.

(** * Properties *)

(** ** The library functions on the examples of their documentation *)

Fact Clean_examples :
  map filepath.Clean
    ["a/c"; "a//c"; "a/c/."; "a/c/b/.."; "/../a/c"; "/../a/b/../././/c"; EmptyString;
     "../a/../.."; "/"; "a/../.."]
  = ["a/c"; "a/c"; "a/c"; "a/c"; "/a/c"; "/a/c"; "."; "../.."; "/"; ".."].
Proof. reflexivity. Qed.

Fact Dir_examples :
  map filepath.Dir
    ["/foo/bar/baz.js"; "/foo/bar/baz"; "/foo/bar/baz/"; "/dirty//path///"; "dev.txt";
     "../todo.txt"; ".."; "."; "/"; EmptyString]
  = ["/foo/bar"; "/foo/bar"; "/foo/bar/baz"; "/dirty/path"; "."; ".."; "."; "."; "/"; "."].
Proof. reflexivity. Qed.

Fact Join_examples :
  map filepath.Join
    [["a"; "b"; "c"]; ["a"; "b/c"]; ["a/b"; "c"]; ["a/b"; "/c"]; ["a/b"; "../../../xyz"];
     [EmptyString; EmptyString]; [knuuPath; "/data/cfg.toml"]]
  = ["a/b/c"; "a/b/c"; "a/b/c"; "a/b/c"; "../xyz"; EmptyString; "/knuu/data/cfg.toml"].
Proof. reflexivity. Qed.

Fact strings_examples :
  strings.HasPrefix "/data/cfg.toml" "/data" = true
  /\ strings.HasPrefix "/database" "/data" = true
  /\ strings.HasPrefix "/etc" "/data" = false
  /\ strings.TrimLeft "//data/x/" "/" = "data/x/"
  /\ fmt.itoa 12 = "12"
  /\ fmt.itoa64 (-7) = "-7".
Proof. repeat split; reflexivity. Qed.

(** [apierrs.IsNotFound] goes by the reason, and by the code 404 when the
    reason is not one the library knows. *)
Fact IsNotFound_examples :
  apierrs.IsNotFound (errors.StatusError "NotFound" 404 "pods x not found") = true
  /\ apierrs.IsNotFound (errors.StatusError errors.StatusReasonUnknown 404 "not found")
     = true
  /\ apierrs.IsNotFound (errors.StatusError "Forbidden" 404 "forbidden") = false
  /\ apierrs.IsNotFound (errors.StatusError errors.StatusReasonUnknown 500 "failure")
     = false
  /\ apierrs.IsNotFound (errors.LibraryError "context canceled") = false.
Proof. repeat split. Qed.

(** The staging command of a pod with one volume at /data and three files,
    two of them in the same folder. *)
Fact buildInitContainerCommand_example :
  buildInitContainerCommand [Example.dataVolume]
    [Example.cfgFile; Example.keyFile; Example.certFile]
  = ["sh"; "-c";
     "set -xe && mkdir -p /knuu && "
     +:+ "mkdir -p /knuu/data && cp /data/cfg.toml /knuu/data/cfg.toml && "
     +:+ "mkdir -p /knuu/etc/app && cp /etc/app/key.json /knuu/etc/app/key.json && "
     +:+ "cp /etc/app/cert.pem /knuu/etc/app/cert.pem && "
     +:+ "if [ -d /data ] && [ " +:+ dquote +:+ "$(ls -A /data)" +:+ dquote
     +:+ " ]; then mkdir -p /knuu/data && cp -r /data/* /knuu/data && "
     +:+ "chown -R 1000:1000 /knuu/data ;fi"].
Proof. reflexivity. Qed.

Fact buildContainerVolumes_example :
  buildContainerVolumes "validator-0" [Example.dataVolume]
    [Example.cfgFile; Example.keyFile]
  = [ {| v1.VolumeMount_Name := "validator-0"; v1.MountPath := "/data";
         v1.SubPath := "data" |};
      {| v1.VolumeMount_Name := "validator-0-config"; v1.MountPath := "/etc/app/key.json";
         v1.SubPath := "1" |} ].
Proof. reflexivity. Qed.

(** ** Loops that append to a slice *)

Lemma fold_left_append {A B} (f : A -> B) (l : list A) (acc : list B) :
  fold_left (fun acc x => acc ++ [f x]) l acc = acc ++ map f l.
Proof.
  revert acc. induction l as [|x l IH]; intros acc; simpl.
  - by rewrite app_nil_r.
  - rewrite IH. by rewrite <- app_assoc.
Qed.

Lemma fold_left_append_if {A B} (p : A -> bool) (f : A -> B) (l : list A) (acc : list B) :
  fold_left (fun acc x => if p x then acc ++ [f x] else acc) l acc
  = acc ++ map f (List.filter p l).
Proof.
  revert acc. induction l as [|x l IH]; intros acc; simpl.
  - by rewrite app_nil_r.
  - rewrite IH. destruct (p x); simpl; [by rewrite <- app_assoc | done].
Qed.

(** ** Strings *)

Lemma append_length (s t : string) :
  String.length (s +:+ t) = String.length s + String.length t.
Proof. induction s as [|c s IH]; simpl; [done | by rewrite IH]. Qed.

Lemma append_neq_self (s t : string) : t ≠ EmptyString -> s ≠ s +:+ t.
Proof.
  intros Ht Heq. apply (f_equal String.length) in Heq.
  rewrite append_length in Heq. destruct t; [done | simpl in Heq; lia].
Qed.



(** ** The mount builders *)

Lemma containerFiles_loop name volumes (l : list (nat * File)) acc :
  fold_left (fun containerFiles nfile =>
      let '(n, file) := nfile in
      if shouldAddFile volumes file
      then containerFiles ++ [fileMount name n file]
      else containerFiles) l acc
  = acc ++ map (fun nfile => fileMount name (fst nfile) (snd nfile))
             (List.filter (fun nfile => shouldAddFile volumes (snd nfile)) l).
Proof.
  revert acc. induction l as [|[n file] l IH]; intros acc; simpl.
  - by rewrite app_nil_r.
  - rewrite IH. destruct (shouldAddFile volumes file); simpl;
      [by rewrite <- app_assoc | done].
Qed.

Lemma initContainerFiles_loop name (l : list (nat * File)) acc :
  fold_left (fun containerFiles nfile =>
      let '(n, file) := nfile in
      containerFiles ++ [fileMount name n file]) l acc
  = acc ++ map (fun nfile => fileMount name (fst nfile) (snd nfile)) l.
Proof.
  revert acc. induction l as [|[n file] l IH]; intros acc; simpl.
  - by rewrite app_nil_r.
  - rewrite IH. by rewrite <- app_assoc.
Qed.

Lemma buildContainerVolumes_eq name volumes files :
  buildContainerVolumes name volumes files
  = map (volumeMount name) volumes
    ++ map (fun nfile => fileMount name (fst nfile) (snd nfile))
         (List.filter (fun nfile => shouldAddFile volumes (snd nfile)) (imap pair files)).
Proof.
  unfold buildContainerVolumes.
  rewrite (fold_left_append (volumeMount name)). simpl. f_equal.
  by rewrite containerFiles_loop.
Qed.

Lemma map_imap_pair {A B} (g : nat -> A -> B) (l : list A) :
  map (fun nx => g (fst nx) (snd nx)) (imap pair l) = imap g l.
Proof.
  apply list_eq. intros i.
  change (map ?f ?l) with (f <$> l).
  rewrite list_lookup_fmap, !list_lookup_imap.
  by destruct (l !! i).
Qed.

Lemma buildInitContainerVolumes_eq name volumes files :
  buildInitContainerVolumes name volumes files
  = if Nat.eqb (length volumes) 0 && Nat.eqb (length files) 0 then []
    else {| v1.VolumeMount_Name := name; v1.MountPath := knuuPath;
            v1.SubPath := EmptyString |} :: imap (fileMount name) files.
Proof.
  unfold buildInitContainerVolumes.
  destruct (_ && _); [done |].
  rewrite initContainerFiles_loop. simpl. f_equal.
  apply map_imap_pair.
Qed.

Lemma shouldAddFile_covered volumes file volume :
  volume ∈ volumes ->
  strings.HasPrefix (Dest file) (Path volume) = true ->
  shouldAddFile volumes file = false.
Proof.
  intros Hin Hpre. unfold shouldAddFile.
  apply negb_false_iff, existsb_exists. exists volume.
  split; [by apply list_elem_of_In | done].
Qed.

Lemma shouldAddFile_same_dest volumes file file' :
  Dest file = Dest file' -> shouldAddFile volumes file = shouldAddFile volumes file'.
Proof. intros Heq. unfold shouldAddFile. by rewrite Heq. Qed.

(** C1. A file whose destination has a declared volume's mount path as a
    prefix has no mount in the main container: no mount of the files
    config map is at its destination, and in particular its own mount (by
    ordinal sub-path) is absent.  Every file, covered or not, has its mount
    in the init container's list, right after the staging-root mount, with
    its ordinal index in the file list as sub-path. *)
Theorem C1_covered_files_only_in_init_mounts
    (name : string) (volumes : list Volume) (files : list File)
    (n : nat) (file : File) :
  files !! n = Some file ->
  ((exists volume, volume ∈ volumes
       /\ strings.HasPrefix (Dest file) (Path volume) = true) ->
     (forall mount, mount ∈ buildContainerVolumes name volumes files ->
        ~ (v1.VolumeMount_Name mount = name +:+ podFilesConfigmapNameSuffix
           /\ v1.MountPath mount = Dest file))
     /\ (fileMount name n file ∉ buildContainerVolumes name volumes files))
  /\ buildInitContainerVolumes name volumes files !! S n = Some (fileMount name n file)
  /\ (fileMount name n file ∈ buildInitContainerVolumes name volumes files)
  /\ v1.SubPath (fileMount name n file) = fmt.itoa n.
Proof.
  intros Hn.
  assert (Hinit : buildInitContainerVolumes name volumes files !! S n
                  = Some (fileMount name n file)).
  { rewrite buildInitContainerVolumes_eq.
    destruct files as [|f0 files]; [done |].
    rewrite andb_comm. cbn [length Nat.eqb andb].
    change ((?x :: ?l) !! S n) with (l !! n).
    by rewrite list_lookup_imap, Hn. }
  split; [| split; [done | split; [by eapply list_elem_of_lookup_2 | done]]].
  intros (volume & Hin & Hpre).
  assert (Hnone : forall mount, mount ∈ buildContainerVolumes name volumes files ->
            ~ (v1.VolumeMount_Name mount = name +:+ podFilesConfigmapNameSuffix
               /\ v1.MountPath mount = Dest file)).
  { intros mount Hm [Hname Hpath].
    rewrite buildContainerVolumes_eq in Hm.
    apply elem_of_app in Hm as [Hm | Hm].
    - apply list_elem_of_In, in_map_iff in Hm as (v & <- & _).
      simpl in Hname. by apply append_neq_self in Hname.
    - apply list_elem_of_In, in_map_iff in Hm as ([k file'] & <- & Hf).
      apply filter_In in Hf as [_ Hadd]. simpl in *.
      rewrite (shouldAddFile_same_dest volumes file' file Hpath) in Hadd.
      by rewrite (shouldAddFile_covered volumes file volume) in Hadd. }
  split; [done |].
  intros Hm. by apply (Hnone _ Hm).
Qed.

(** ** The pod spec *)

Lemma preparePodSpec_sidecars (podSpec : v1.PodSpec) (sidecars : list ContainerConfig) :
  let final :=
    fold_left (fun podSpec sidecarConfig =>
      let sidecarContainer := prepareContainer sidecarConfig in
      let sidecarVolumes := preparePodVolumes sidecarConfig in
      {| v1.PodSpec_ServiceAccountName := v1.PodSpec_ServiceAccountName podSpec;
         v1.PodSpec_SecurityContext := v1.PodSpec_SecurityContext podSpec;
         v1.InitContainers := v1.InitContainers podSpec;
         v1.Containers := v1.Containers podSpec ++ [sidecarContainer];
         v1.Volumes := v1.Volumes podSpec ++ sidecarVolumes |})
      sidecars podSpec in
  v1.InitContainers final = v1.InitContainers podSpec
  /\ v1.Containers final = v1.Containers podSpec ++ map prepareContainer sidecars.
Proof.
  revert podSpec. induction sidecars as [|sc sidecars IH]; intros podSpec; simpl.
  - by rewrite app_nil_r.
  - destruct (IH {| v1.PodSpec_ServiceAccountName := v1.PodSpec_ServiceAccountName podSpec;
                    v1.PodSpec_SecurityContext := v1.PodSpec_SecurityContext podSpec;
                    v1.InitContainers := v1.InitContainers podSpec;
                    v1.Containers := v1.Containers podSpec ++ [prepareContainer sc];
                    v1.Volumes := v1.Volumes podSpec ++ preparePodVolumes sc |})
      as [Hi Hc].
    simpl in Hi, Hc. split; [done |]. by rewrite Hc, <- app_assoc.
Qed.

Lemma preparePodSpec_InitContainers spec init :
  v1.InitContainers (preparePodSpec spec init)
  = prepareInitContainers (PodContainerConfig spec) init.
Proof. unfold preparePodSpec. by destruct (preparePodSpec_sidecars
  {| v1.PodSpec_ServiceAccountName := ServiceAccountName spec;
     v1.PodSpec_SecurityContext := Some {| v1.FSGroup := FsGroup spec |};
     v1.InitContainers := prepareInitContainers (PodContainerConfig spec) init;
     v1.Containers := [prepareContainer (PodContainerConfig spec)];
     v1.Volumes := preparePodVolumes (PodContainerConfig spec) |} (SidecarConfigs spec)).
Qed.

Lemma preparePodSpec_Containers spec init :
  v1.Containers (preparePodSpec spec init)
  = prepareContainer (PodContainerConfig spec)
      :: map prepareContainer (SidecarConfigs spec).
Proof. unfold preparePodSpec. by destruct (preparePodSpec_sidecars
  {| v1.PodSpec_ServiceAccountName := ServiceAccountName spec;
     v1.PodSpec_SecurityContext := Some {| v1.FSGroup := FsGroup spec |};
     v1.InitContainers := prepareInitContainers (PodContainerConfig spec) init;
     v1.Containers := [prepareContainer (PodContainerConfig spec)];
     v1.Volumes := preparePodVolumes (PodContainerConfig spec) |} (SidecarConfigs spec)).
Qed.

Lemma prepareInitContainers_false config :
  prepareInitContainers config false = [].
Proof. done. Qed.

Lemma prepareInitContainers_nonempty config init :
  prepareInitContainers config init <> [] <-> init = true /\ Volumes config <> [].
Proof.
  unfold prepareInitContainers.
  destruct init, (Volumes config) as [|v vs]; simpl; split; try done.
  - by intros [_ ?].
  - by intros [? _].
  - by intros [? _].
Qed.

(** C2. The pod spec has an init container exactly when seeding is
    requested and the primary container declares a volume (and then it has
    exactly one); with no volumes and no files there is none and the main
    container has no mounts. *)
Theorem C2_init_container_iff_seeding_and_volumes (spec : PodConfig) (init : bool) :
  (v1.InitContainers (preparePodSpec spec init) <> []
     <-> init = true /\ Volumes (PodContainerConfig spec) <> [])
  /\ length (v1.InitContainers (preparePodSpec spec init)) <= 1
  /\ (Volumes (PodContainerConfig spec) = [] ->
      Files (PodContainerConfig spec) = [] ->
      v1.InitContainers (preparePodSpec spec init) = []
      /\ exists main, head (v1.Containers (preparePodSpec spec init)) = Some main
           /\ main = prepareContainer (PodContainerConfig spec)
           /\ v1.VolumeMounts main = []).
Proof.
  rewrite preparePodSpec_InitContainers, preparePodSpec_Containers.
  split; [apply prepareInitContainers_nonempty |].
  split.
  - unfold prepareInitContainers. destruct (_ || _); simpl; lia.
  - intros Hv Hf. split.
    + unfold prepareInitContainers. rewrite Hv. simpl. by rewrite orb_true_r.
    + eexists. split; [done |]. split; [done |].
      simpl. by rewrite Hv, Hf.
Qed.

Lemma C2_witness :
  v1.InitContainers (preparePodSpec (Example.podConfig [] []) true) = []
  /\ exists main,
       head (v1.Containers (preparePodSpec (Example.podConfig [] []) true)) = Some main
       /\ main = prepareContainer (PodContainerConfig (Example.podConfig [] []))
       /\ v1.VolumeMounts main = [].
Proof.
  apply (C2_init_container_iff_seeding_and_volumes (Example.podConfig [] []) true);
    reflexivity.
Defined.

Lemma C1_witness :
  (fileMount "validator-0" 0 Example.cfgFile
     ∉ buildContainerVolumes "validator-0" [Example.dataVolume]
         [Example.cfgFile; Example.keyFile])
  /\ buildInitContainerVolumes "validator-0" [Example.dataVolume]
       [Example.cfgFile; Example.keyFile] !! 1
     = Some (fileMount "validator-0" 0 Example.cfgFile).
Proof.
  destruct (C1_covered_files_only_in_init_mounts "validator-0" [Example.dataVolume]
              [Example.cfgFile; Example.keyFile] 0 Example.cfgFile eq_refl)
    as (Hmain & Hinit & _).
  split; [| exact Hinit].
  apply Hmain. exists Example.dataVolume. split; [left | reflexivity].
Defined.

(** ** The staging command *)

Lemma stageFile_loop (files : list File) (cmds : list string)
    (dirsProcessed : gmap string bool) :
  fst (fold_left stageFile files (cmds, dirsProcessed))
  = cmds ++ fileCmds dirsProcessed files.
Proof.
  revert cmds dirsProcessed.
  induction files as [|file files IH]; intros cmds dirsProcessed; simpl.
  - by rewrite app_nil_r.
  - destruct (dirsProcessed !! filepath.Dir (Dest file)) eqn:Hseen;
      rewrite IH, <- !app_assoc; done.
Qed.

Lemma stageVolume_loop (len : nat) (l : list (nat * Volume)) (cmds : list string) :
  fold_left (stageVolume len) l cmds
  = cmds ++ map (fun iv => volumeCmd len (fst iv) (snd iv)) l.
Proof.
  revert cmds. induction l as [|[i volume] l IH]; intros cmds; simpl.
  - by rewrite app_nil_r.
  - by rewrite IH, <- app_assoc.
Qed.

Lemma initContainerCmds_eq (volumes : list Volume) (files : list File) :
  initContainerCmds volumes files
  = ["set -xe && "; "mkdir -p /knuu && "]
    ++ fileCmds ∅ files
    ++ imap (volumeCmd (length volumes)) volumes.
Proof.
  unfold initContainerCmds.
  pose proof (stageFile_loop files
    ["set -xe && "; "mkdir -p " +:+ knuuPath +:+ " && "] ∅) as Hfiles.
  destruct (fold_left stageFile files _) as [cmds dirs]. simpl in Hfiles. subst cmds.
  rewrite stageVolume_loop, map_imap_pair. rewrite <- ?app_assoc. reflexivity.
Qed.


Lemma firstByte_copyFileToKnuu file : firstByte (copyFileToKnuu file) = Some "c"%char.
Proof. done. Qed.

Lemma firstByte_volumeCmd len i volume : firstByte (volumeCmd len i volume) = Some "i"%char.
Proof. unfold volumeCmd. by destruct (_ <? _)%Z. Qed.
















Lemma string_app_assoc (a b c : string) : (a +:+ b) +:+ c = a +:+ (b +:+ c).
Proof.
  induction a as [|x a IH]; [done |].
  change (String x ((a +:+ b) +:+ c) = String x (a +:+ (b +:+ c))). by rewrite IH.
Qed.

Lemma string_app_nil_r (s : string) : s +:+ EmptyString = s.
Proof.
  induction s as [|c s IH]; [done |].
  change (String c s +:+ EmptyString) with (String c (s +:+ EmptyString)).
  by rewrite IH.
Qed.

Lemma strings_Join_cons (e : string) (l : list string) :
  strings.Join (e :: l) EmptyString = e +:+ strings.Join l EmptyString.
Proof. destruct l; simpl; [by rewrite string_app_nil_r | done]. Qed.


(** *** Destinations that are absolute paths of plain elements *)

















(** ** The client operations *)

Section ClientProperties.

Context {W : Type} {cluster : Cluster W} {pkg : Package}.

Implicit Types (c : Client) (s : State W).

Lemma getPod_terminated c name s :
  terminated c = true ->
  getPod c name s = (Err (errors.asError ErrClientTerminated), s).
Proof. intros Ht. unfold getPod. by rewrite Ht. Qed.

Lemma getPod_active c name s :
  terminated c = false ->
  getPod c name s
  = (fst (Pods_Get (namespace c) name (world s)),
     {| world := snd (Pods_Get (namespace c) name (world s));
        calls := calls s
                 ++ [CallGet (namespace c) name
                       (fst (Pods_Get (namespace c) name (world s)))] |}).
Proof.
  intros Ht. unfold getPod, call. rewrite Ht.
  by destruct (Pods_Get _ _ _).
Qed.

Lemma String_length_zero (str : string) :
  Nat.eqb (String.length str) 0 = true <-> str = EmptyString.
Proof. destruct str; simpl; split; done. Qed.

(** C4. Once the stream of an exec is set up: a nil stream error with an
    empty standard-error buffer returns the captured standard output and no
    error; a non-empty standard-error buffer returns an error whatever the
    stream reported, and with a nil stream error that error is
    ErrCommandExecution; a stream error returns ErrExecutingCommand with
    both buffers as parameters, wrapping the stream error. *)
Theorem C4_exec_result_classification
    c (podName containerName : string) (cmd : list string) s
    (pod : v1.Pod) (w1 w2 w3 w4 : W) (out : StreamResult) :
  terminated c = false ->
  validatePodName podName = None ->
  validateContainerName containerName = None ->
  validateCommand cmd = None ->
  Pods_Get (namespace c) podName (world s) = (Ok pod, w1) ->
  getClusterConfig w1 = (None, w2) ->
  NewSPDYExecutor (execRequest c podName containerName cmd) w2 = (None, w3) ->
  StreamWithContext (execRequest c podName containerName cmd) w3 = (out, w4) ->
  let res := fst (RunCommandInPod c podName containerName cmd s) in
  (streamErr out = None -> stderr out = EmptyString -> res = (stdout out, None))
  /\ (stderr out <> EmptyString -> fst res = EmptyString /\ snd res <> None)
  /\ (streamErr out = None -> stderr out <> EmptyString ->
      res = (EmptyString,
             Some (errors.asError
                     (errors.WithParams ErrCommandExecution [stdout out; stderr out]))))
  /\ (forall err, streamErr out = Some err ->
      res = (EmptyString,
             Some (errors.Wrap
                     (errors.WithParams ErrExecutingCommand [stdout out; stderr out])
                     (Some err)))).
Proof.
  intros Ht Hpod Hcont Hcmd Hget Hcfg Hexec Hstream res.
  assert (Hres : res
    = match streamErr out with
      | Some err =>
          (EmptyString,
           Some (errors.Wrap
                   (errors.WithParams ErrExecutingCommand [stdout out; stderr out])
                   (Some err)))
      | None =>
          if negb (Nat.eqb (String.length (stderr out)) 0)
          then (EmptyString,
                Some (errors.asError
                        (errors.WithParams ErrCommandExecution [stdout out; stderr out])))
          else (stdout out, None)
      end).
  { subst res. unfold RunCommandInPod. rewrite Hpod, Hcont, Hcmd.
    unfold bind. rewrite (getPod_active _ _ _ Ht), Hget. cbn [fst snd].
    unfold call. cbn [world calls].
    rewrite Hcfg. cbn [world calls].
    rewrite Hexec. cbn [world calls].
    rewrite Hstream. cbn [world calls].
    destruct (streamErr out); [done |].
    by destruct (negb _). }
  rewrite Hres. clear Hres.
  assert (Hlen : stderr out <> EmptyString ->
                 negb (Nat.eqb (String.length (stderr out)) 0) = true).
  { intros Hne. apply negb_true_iff, not_true_iff_false.
    by rewrite String_length_zero. }
  repeat split.
  - intros -> ->. done.
  - destruct (streamErr out); [done |]. by rewrite Hlen.
  - destruct (streamErr out); [done |]. by rewrite Hlen.
  - intros -> Hne. by rewrite Hlen.
  - intros err ->. done.
Qed.

(** C5. With the pod fetched, IsPodRunning returns the conjunction of the
    ready flags of the reported container statuses and no error: true
    exactly when all are ready, false without an error when one is not.
    When the Get fails, not-found included, it returns false together with
    ErrGettingPod wrapping the platform's error. *)
Theorem C5_IsPodRunning_ready_or_error c (name : string) s :
  terminated c = false ->
  (forall pod w1,
     Pods_Get (namespace c) name (world s) = (Ok pod, w1) ->
     fst (IsPodRunning c name s)
       = (forallb v1.Ready (v1.ContainerStatuses (v1.Status pod)), None)
     /\ (fst (IsPodRunning c name s) = (true, None)
         <-> forall status, status ∈ v1.ContainerStatuses (v1.Status pod) ->
                            v1.Ready status = true)
     /\ ((exists status, status ∈ v1.ContainerStatuses (v1.Status pod)
                         /\ v1.Ready status = false) ->
         fst (IsPodRunning c name s) = (false, None)))
  /\ (forall err w1,
        Pods_Get (namespace c) name (world s) = (Err err, w1) ->
        fst (IsPodRunning c name s)
          = (false, Some (errors.Wrap (errors.WithParams ErrGettingPod [name]) (Some err))))
  /\ (fst (fst (IsPodRunning c name s)) = true
      <-> exists pod w1,
            Pods_Get (namespace c) name (world s) = (Ok pod, w1)
            /\ forall status, status ∈ v1.ContainerStatuses (v1.Status pod) ->
                              v1.Ready status = true).
Proof.
  intros Ht.
  assert (Hrun : fst (IsPodRunning c name s)
    = match fst (Pods_Get (namespace c) name (world s)) with
      | Ok pod => (forallb v1.Ready (v1.ContainerStatuses (v1.Status pod)), None)
      | Err err =>
          (false, Some (errors.Wrap (errors.WithParams ErrGettingPod [name]) (Some err)))
      end).
  { unfold IsPodRunning, bind. rewrite (getPod_active _ _ _ Ht). cbn [fst snd].
    by destruct (fst (Pods_Get _ _ _)). }
  assert (Hall : forall statuses : list v1.ContainerStatus,
            forallb v1.Ready statuses = true
            <-> forall status, status ∈ statuses -> v1.Ready status = true).
  { intros statuses. rewrite forallb_forall.
    split; intros H status Hin; apply H; by apply list_elem_of_In. }
  rewrite Hrun. split; [| split].
  - intros pod w1 Hget. rewrite Hget. cbn [fst]. split; [done |]. split.
    + rewrite <- Hall. split; [by intros [= ->] | by intros ->].
    + intros (status & Hin & Hnot). f_equal.
      apply not_true_iff_false. rewrite Hall. intros H.
      specialize (H status Hin). congruence.
  - intros err w1 Hget. by rewrite Hget.
  - destruct (Pods_Get (namespace c) name (world s)) as [[pod | err] w1]; cbn [fst].
    + rewrite Hall. split.
      * intros H. by exists pod, w1.
      * by intros (pod' & w1' & [= <- <-] & H).
    + split; [done |]. by intros (pod' & w1' & [=] & _).
Qed.

(** *** Replacement: the calls of each phase *)

(** Closes a goal with a hypothesis [x ∈ [y1; ...; yn]] in which [x] differs
    from every [yi] by its constructor. *)
Ltac not_listed H :=
  repeat (apply elem_of_cons in H as [H | H]; [discriminate H |]);
  by apply elem_of_nil in H.

Lemma DeletePod_phase c (name : string) (grace : option Z) s :
  exists made,
    calls (snd (DeletePodWithGracePeriod c name grace s)) = calls s ++ made
    /\ DeletePhase c name grace made (fst (DeletePodWithGracePeriod c name grace s)).
Proof.
  unfold DeletePodWithGracePeriod, bind, getPod, call, ret.
  destruct (terminated c) eqn:Ht.
  - cbn. exists []. rewrite app_nil_r. split; [done | by constructor].
  - destruct (Pods_Get (namespace c) name (world s)) as [[pod | err] w1] eqn:Hget;
      cbn [world calls].
    + destruct (Pods_Delete (namespace c) name grace w1) as [[err |] w2] eqn:Hdel;
        cbn [fst snd calls]; rewrite <- app_assoc; cbn [app];
        (eexists; split; [done | by constructor]).
    + destruct (apierrs.IsNotFound err) eqn:Hnf; cbn [fst snd calls];
        (eexists; split; [done | by constructor]).
Qed.

Lemma waitForPodDeletion_phase (fuel : nat) c (name : string) s :
  terminated c = false ->
  exists made,
    calls (snd (waitForPodDeletion fuel c name s)) = calls s ++ made
    /\ AwaitPhase c name fuel made (fst (waitForPodDeletion fuel c name s)).
Proof.
  intros Ht. revert s. induction fuel as [|fuel IH]; intros s.
  - cbn. exists []. rewrite app_nil_r. split; [done | constructor].
  - cbn [waitForPodDeletion]. unfold bind, getPod, call, ret. rewrite Ht.
    destruct (Done_or_After retryInterval (world s)) as [[ctxErr |] w1] eqn:Hwait;
      cbn [world calls].
    + cbn [fst snd calls]. eexists. split; [done | constructor].
    + destruct (Pods_Get (namespace c) name w1) as [[pod | err] w2] eqn:Hget.
      * match goal with
        | |- context [waitForPodDeletion fuel c name ?st] =>
            destruct (IH st) as (made & Hcalls & Hphase)
        end.
        exists (CallDoneOrAfter retryInterval None
                :: CallGet (namespace c) name (Ok pod) :: made).
        split; [| by constructor].
        rewrite Hcalls. cbn [calls]. by rewrite <- !app_assoc.
      * destruct (apierrs.IsNotFound err) eqn:Hnf; cbn [fst snd calls];
          rewrite <- !app_assoc; cbn [app];
          (eexists; split; [done | by constructor]).
Qed.

Lemma DeployPod_phase c (podConfig : PodConfig) (init : bool) s :
  exists made,
    calls (snd (DeployPod c podConfig init s)) = calls s ++ made
    /\ DeployPhase c podConfig init made (fst (DeployPod c podConfig init s)).
Proof.
  unfold DeployPod, bind, call, ret.
  destruct (terminated c) eqn:Ht.
  { cbn. exists []. rewrite app_nil_r. split; [done | by constructor]. }
  destruct (validatePodConfig podConfig) eqn:Hvalid.
  { cbn. exists []. rewrite app_nil_r. split; [done | by constructor]. }
  destruct (Pods_Create _ _ _) as [[created | err] w1]; cbn [fst snd calls];
    (eexists; split; [done | by constructor]).
Qed.

Lemma DeletePhase_active c (name : string) (grace : option Z) made :
  DeletePhase c name grace made None -> terminated c = false.
Proof. by inversion 1. Qed.

(** The calls of a replacement are those of the delete phase, then those of
    the await phase, then those of the deploy phase; a later phase starts
    only when the earlier ones returned nil. *)
Lemma ReplacePod_phases (fuel : nat) c (podConfig : PodConfig) (grace : option Z) s :
  exists made,
    calls (snd (ReplacePodWithGracePeriod fuel c podConfig grace s)) = calls s ++ made
    /\ ReplacePhases fuel c podConfig grace made
         (fst (ReplacePodWithGracePeriod fuel c podConfig grace s)).
Proof.
  unfold ReplacePodWithGracePeriod, bind, ret.
  destruct (DeletePod_phase c (PodName podConfig) grace s) as (deleteCalls & Hc1 & Hphase1).
  destruct (DeletePodWithGracePeriod c (PodName podConfig) grace s) as [res s1].
  cbn [fst snd] in Hc1, Hphase1.
  destruct res as [err |].
  { exists deleteCalls. cbn [fst snd]. split; [done | by constructor]. }
  pose proof (DeletePhase_active _ _ _ _ Hphase1) as Hact.
  destruct (waitForPodDeletion_phase fuel c (PodName podConfig) s1 Hact)
    as (awaitCalls & Hc2 & Hphase2).
  destruct (waitForPodDeletion fuel c (PodName podConfig) s1) as [res s2].
  cbn [fst snd] in Hc2, Hphase2.
  destruct res as [[err |] |].
  - exists (deleteCalls ++ awaitCalls). cbn [fst snd].
    rewrite Hc2, Hc1, <- app_assoc. split; [done | by constructor].
  - destruct (DeployPod_phase c podConfig false s2) as (deployCalls & Hc3 & Hphase3).
    destruct (DeployPod c podConfig false s2) as [res s3].
    cbn [fst snd] in Hc3, Hphase3.
    exists (deleteCalls ++ awaitCalls ++ deployCalls).
    assert (calls s3 = calls s ++ deleteCalls ++ awaitCalls ++ deployCalls) as Hc.
    { by rewrite Hc3, Hc2, Hc1, <- !app_assoc. }
    destruct res; cbn [fst snd]; (split; [done | by econstructor]).
  - exists (deleteCalls ++ awaitCalls). cbn [fst snd].
    rewrite Hc2, Hc1, <- app_assoc. split; [done | by constructor].
Qed.

Lemma DeletePhase_no_create c (name : string) (grace : option Z) made res
    (ns : string) (pod : v1.Pod) (answer : result v1.Pod) :
  DeletePhase c name grace made res -> CallCreate ns pod answer ∉ made.
Proof. intros Hphase Hin. inversion Hphase; subst; not_listed Hin. Qed.

Lemma AwaitPhase_no_create c (name : string) (polls : nat) made res
    (ns : string) (pod : v1.Pod) (answer : result v1.Pod) :
  AwaitPhase c name polls made res -> CallCreate ns pod answer ∉ made.
Proof.
  intros Hphase Hin. induction Hphase; try not_listed Hin.
  apply elem_of_cons in Hin as [Hin | Hin]; [done |].
  apply elem_of_cons in Hin as [Hin | Hin]; [done | auto].
Qed.

Lemma DeployPhase_create c (podConfig : PodConfig) (init : bool) made res
    (ns : string) (pod : v1.Pod) (answer : result v1.Pod) :
  DeployPhase c podConfig init made res ->
  CallCreate ns pod answer ∈ made ->
  ns = namespace c /\ pod = preparePod podConfig init.
Proof.
  intros Hphase Hin. inversion Hphase; subst; try not_listed Hin;
    by apply list_elem_of_singleton in Hin as [= -> -> ->].
Qed.



(** C10. ReplacePodWithGracePeriod and ReplacePod deploy with the seeding
    flag false: every Create they make submits the manifest built without
    seeding, which has no init container whatever volumes the configuration
    declares. *)
Theorem C10_replace_deploys_without_init_container
    (fuel : nat) c (podConfig : PodConfig) (grace : option Z) s
    (ns : string) (pod : v1.Pod) (res : result v1.Pod) :
  (CallCreate ns pod res
     ∈ calls (snd (ReplacePodWithGracePeriod fuel c podConfig grace s))
   \/ CallCreate ns pod res ∈ calls (snd (ReplacePod fuel c podConfig s))) ->
  CallCreate ns pod res ∈ calls s
  \/ (pod = preparePod podConfig false /\ v1.InitContainers (v1.Spec pod) = []).
Proof.
  assert (Hone : forall grace',
    CallCreate ns pod res
      ∈ calls (snd (ReplacePodWithGracePeriod fuel c podConfig grace' s)) ->
    CallCreate ns pod res ∈ calls s
    \/ (pod = preparePod podConfig false /\ v1.InitContainers (v1.Spec pod) = [])).
  { intros grace' Hin.
    destruct (ReplacePod_phases fuel c podConfig grace' s) as (made & Hcalls & Hphases).
    rewrite Hcalls in Hin.
    apply elem_of_app in Hin as [Hin | Hin]; [by left |].
    assert (Hdeploy : exists deployCalls answer,
              DeployPhase c podConfig false deployCalls answer
              /\ CallCreate ns pod res ∈ deployCalls).
    { inversion Hphases as
        [ deleteCalls err Hdel
        | deleteCalls awaitCalls Hdel Hawait
        | deleteCalls awaitCalls err Hdel Hawait
        | deleteCalls awaitCalls deployCalls err Hdel Hawait Hdep
        | deleteCalls awaitCalls deployCalls created Hdel Hawait Hdep ]; subst made.
      - by apply (DeletePhase_no_create _ _ _ _ _ ns pod res) in Hdel.
      - apply elem_of_app in Hin as [Hin | Hin].
        + by apply (DeletePhase_no_create _ _ _ _ _ ns pod res) in Hdel.
        + by apply (AwaitPhase_no_create _ _ _ _ _ ns pod res) in Hawait.
      - apply elem_of_app in Hin as [Hin | Hin].
        + by apply (DeletePhase_no_create _ _ _ _ _ ns pod res) in Hdel.
        + by apply (AwaitPhase_no_create _ _ _ _ _ ns pod res) in Hawait.
      - apply elem_of_app in Hin as [Hin | Hin].
        { by apply (DeletePhase_no_create _ _ _ _ _ ns pod res) in Hdel. }
        apply elem_of_app in Hin as [Hin | Hin].
        { by apply (AwaitPhase_no_create _ _ _ _ _ ns pod res) in Hawait. }
        by eexists _, _.
      - apply elem_of_app in Hin as [Hin | Hin].
        { by apply (DeletePhase_no_create _ _ _ _ _ ns pod res) in Hdel. }
        apply elem_of_app in Hin as [Hin | Hin].
        { by apply (AwaitPhase_no_create _ _ _ _ _ ns pod res) in Hawait. }
        by eexists _, _. }
    destruct Hdeploy as (deployCalls & answer & Hdep & Hin').
    right. destruct (DeployPhase_create _ _ _ _ _ _ _ _ Hdep Hin') as [_ ->].
    split; [done |]. cbn [v1.Spec preparePod].
    rewrite preparePodSpec_InitContainers. apply prepareInitContainers_false. }
  intros [Hin | Hin]; [by apply (Hone grace) | by apply (Hone None)].
Qed.

(** *** Port forwarding *)

Ltac keeps_caller :=
  split;
  [ intros res Hc; rewrite ?Hc; repeat split; first [done | lia | auto]
  | intros res Hc Hc'; congruence ].

Lemma Race_step_returned (a : Race.Action) (st st' : Race.State) :
  Race.step a st = Some st' ->
  (forall res, Race.caller st = Race.Returned res ->
     Race.caller st' = Race.Returned res
     /\ (Race.elapsed st <= Race.elapsed st')%Z
     /\ (Race.readyClosed st = true -> Race.readyClosed st' = true))
  /\ (forall res, Race.caller st = Race.Selecting ->
        Race.caller st' = Race.Returned res -> Race.returnedBy st' res).
Proof.
  unfold Race.returnedBy.
  destruct a as [d | | [err |] | | |]; cbn [Race.step].
  - destruct (Z.leb_spec 0 d); [| done]. intros [= <-]. cbn.
    keeps_caller.
  - destruct (Race.goroutine st); try done. intros [= <-]. cbn.
    keeps_caller.
  - destruct (Race.goroutine st); try done. intros [= <-]. cbn.
    keeps_caller.
  - destruct (Race.goroutine st); try done. intros [= <-]. cbn.
    keeps_caller.
  - destruct (Race.caller st) eqn:Hc; [| done].
    destruct (Race.readyClosed st) eqn:Hr; [| done]. intros [= <-]. cbn.
    split; [done |]. intros res _ [= <-]. by left.
  - destruct (Race.caller st) eqn:Hc; [| done].
    destruct (Race.goroutine st) eqn:Hg.
    + destruct (Race.errClosed st); [| done]. intros [= <-]. cbn.
      split; [done |]. intros res _ [= <-]. right. left. by eexists.
    + intros [= <-]. cbn.
      split; [done |]. intros res _ [= <-]. right. left. by eexists.
    + destruct (Race.errClosed st); [| done]. intros [= <-]. cbn.
      split; [done |]. intros res _ [= <-]. right. left. by eexists.
  - destruct (Race.caller st) eqn:Hc; [| done].
    destruct (Z.leb_spec (waitRetry * 2) (Race.elapsed st)); [| done].
    intros [= <-]. cbn.
    split; [done |]. intros res _ [= <-]. right. right. done.
Qed.

Lemma Race_run_returned (schedule : list Race.Action) (st st' : Race.State)
    (res : option error) :
  Race.run schedule st = Some st' ->
  match Race.caller st with
  | Race.Selecting => True
  | Race.Returned res0 => Race.returnedBy st res0
  end ->
  Race.caller st' = Race.Returned res ->
  Race.returnedBy st' res.
Proof.
  revert st. induction schedule as [|a schedule IH]; intros st; cbn [Race.run].
  - intros [= <-] Hinv Hret. by rewrite Hret in Hinv.
  - destruct (Race.step a st) as [st1 |] eqn:Hstep; [| done].
    intros Hrun Hinv Hret. apply (IH st1 Hrun); [| done].
    destruct (Race_step_returned a st st1 Hstep) as [Hkeep Hnew].
    destruct (Race.caller st) as [| res0] eqn:Hc.
    + destruct (Race.caller st1) as [| res1] eqn:Hc1; [done |]. by apply Hnew.
    + destruct (Hkeep res0 eq_refl) as (-> & Hle & Hready).
      unfold Race.returnedBy in *.
      destruct Hinv as [[-> Hr] | [Herr | [-> Ht]]]; [left | right; left | right; right];
        try done; split; [done | auto | done | lia].
Qed.

(** C7. After validation, the Get, the cluster configuration, the round
    tripper and the forwarder succeed, PortForwardPod waits on exactly the
    three cases of its select, with a timer of twice waitRetry, and returns
    nil for the ready signal, ErrForwardingPorts wrapping the received error
    for the error signal, and ErrPortForwardingTimeout for the timer.  The
    timeout error differs from every wrapped forwarding error and from every
    library error such as those of a cancelled context.  In the stepwise
    model the caller returns one of these three results, and the timeout one
    only once twice waitRetry has elapsed. *)
Theorem C7_port_forward_select_outcomes
    c (podName : string) (localPort remotePort : Z) s
    (pod : v1.Pod) (w1 w2 w3 w4 w5 : W) (fired : SelectCase) :
  terminated c = false ->
  validatePodName podName = None ->
  validatePort localPort = None ->
  validatePort remotePort = None ->
  Pods_Get (namespace c) podName (world s) = (Ok pod, w1) ->
  getClusterConfig w1 = (None, w2) ->
  RoundTripperFor w2 = (None, w3) ->
  portforward_New (namespace c) podName (forwardedPorts localPort remotePort) w3
    = ((EmptyString, None), w4) ->
  ForwardPorts_select (waitRetry * 2)%Z w4 = (fired, w5) ->
  PortForwardPod c podName localPort remotePort s
    = (selectResult fired,
       {| world := w5;
          calls := calls s ++
            [CallGet (namespace c) podName (Ok pod);
             CallClusterConfig None;
             CallRoundTripper None;
             CallNewForwarder (namespace c) podName
               (forwardedPorts localPort remotePort) (EmptyString, None);
             CallForwardPorts (waitRetry * 2)%Z fired] |})
  /\ selectResult CaseReady = None
  /\ (forall err, selectResult (CaseErr err) = Some (errors.Wrap ErrForwardingPorts err))
  /\ selectResult CaseTimeout = Some (errors.asError ErrPortForwardingTimeout)
  /\ (forall err, errors.asError ErrPortForwardingTimeout
                  <> errors.Wrap ErrForwardingPorts err)
  /\ (forall message, errors.asError ErrPortForwardingTimeout
                      <> errors.LibraryError message)
  /\ (forall schedule st res,
        Race.run schedule Race.init = Some st ->
        Race.caller st = Race.Returned res ->
        (res = None /\ Race.readyClosed st = true)
        \/ (exists err, res = Some (errors.Wrap ErrForwardingPorts err))
        \/ (res = Some (errors.asError ErrPortForwardingTimeout)
            /\ (waitRetry * 2 <= Race.elapsed st)%Z)).
Proof.
  intros Ht Hname Hlocal Hremote Hget Hcfg Hrt Hnew Hsel.
  split; [| repeat split; try done].
  - unfold PortForwardPod. rewrite Hname, Hlocal, Hremote.
    unfold bind, getPod, call, ret. rewrite Ht, Hget. cbn [world calls].
    rewrite Hcfg. cbn [world calls]. rewrite Hrt. cbn [world calls].
    rewrite Hnew. cbn [world calls String.length Nat.ltb Nat.leb].
    rewrite Hsel. cbn [world calls]. by rewrite <- !app_assoc.
  - intros schedule st res Hrun Hret.
    by apply (Race_run_returned schedule Race.init st res Hrun).
Qed.

(** *** The terminated client *)

Lemma Is_ErrClientTerminated :
  errors.Is (errors.asError ErrClientTerminated) ErrClientTerminated = true.
Proof. unfold errors.Is. destruct ErrClientTerminated as [code msg params [cause |]];
  cbn; by rewrite String.eqb_refl. Qed.

Lemma Is_wrapped (e target : errors.Error) (err : error) :
  errors.Is err target = true -> errors.Is (errors.Wrap e (Some err)) target = true.
Proof. unfold errors.Is. cbn. intros ->. apply orb_true_r. Qed.

(** C9 as the code has it.  On a terminated client every operation returns an
    error and leaves the platform and the call list untouched.  DeployPod and
    DeletePodWithGracePeriod return ErrClientTerminated itself;
    ReplacePodWithGracePeriod and IsPodRunning return an error that wraps it;
    RunCommandInPod and PortForwardPod validate their arguments first and
    return the first validation error, or else ErrGettingPod wrapping
    ErrClientTerminated. *)
Theorem C9_terminated_client_fails_without_calls c :
  terminated c = true ->
  let stopped := errors.asError ErrClientTerminated in
  (forall podConfig init s, DeployPod c podConfig init s = (Err stopped, s))
  /\ (forall name grace s, DeletePodWithGracePeriod c name grace s = (Some stopped, s))
  /\ (forall name s, DeletePod c name s = (Some stopped, s))
  /\ (forall fuel podConfig grace s,
        ReplacePodWithGracePeriod fuel c podConfig grace s
        = (Some (Err (errors.Wrap ErrDeletingPod (Some stopped))), s))
  /\ (forall name s,
        IsPodRunning c name s
        = ((false, Some (errors.Wrap (errors.WithParams ErrGettingPod [name])
                           (Some stopped))), s))
  /\ (forall podName containerName cmd s,
        RunCommandInPod c podName containerName cmd s
        = ((EmptyString,
            Some match validatePodName podName with
                 | Some err => err
                 | None =>
                 match validateContainerName containerName with
                 | Some err => err
                 | None =>
                 match validateCommand cmd with
                 | Some err => err
                 | None => errors.Wrap (errors.WithParams ErrGettingPod [podName])
                             (Some stopped)
                 end end end), s))
  /\ (forall podName localPort remotePort s,
        PortForwardPod c podName localPort remotePort s
        = (Some match validatePodName podName with
                | Some err => err
                | None =>
                match validatePort localPort with
                | Some err => err
                | None =>
                match validatePort remotePort with
                | Some err => err
                | None => errors.Wrap (errors.WithParams ErrGettingPod [podName])
                            (Some stopped)
                end end end, s))
  /\ errors.Is stopped ErrClientTerminated = true
  /\ (forall e, errors.Is (errors.Wrap e (Some stopped)) ErrClientTerminated = true).
Proof.
  intros Ht stopped.
  assert (Hdel : forall name grace s,
            DeletePodWithGracePeriod c name grace s = (Some stopped, s)).
  { intros. unfold DeletePodWithGracePeriod, bind. by rewrite getPod_terminated. }
  repeat split.
  - intros. unfold DeployPod. by rewrite Ht.
  - done.
  - intros. apply Hdel.
  - intros. unfold ReplacePodWithGracePeriod, bind. by rewrite Hdel.
  - intros. unfold IsPodRunning, bind. by rewrite getPod_terminated.
  - intros. unfold RunCommandInPod.
    destruct (validatePodName podName); [done |].
    destruct (validateContainerName containerName); [done |].
    destruct (validateCommand cmd); [done |].
    unfold bind. by rewrite getPod_terminated.
  - intros. unfold PortForwardPod.
    destruct (validatePodName podName); [done |].
    destruct (validatePort localPort); [done |].
    destruct (validatePort remotePort); [done |].
    unfold bind. by rewrite getPod_terminated.
  - apply Is_ErrClientTerminated.
  - intros e. apply Is_wrapped, Is_ErrClientTerminated.
Qed.

(** *** The forwarding goroutine after the caller has returned *)

(** No step signals the stop channel. *)
Lemma Race_step_stop (a : Race.Action) (st st' : Race.State) :
  Race.step a st = Some st' -> Race.stopSignalled st' = Race.stopSignalled st.
Proof.
  destruct a as [d | | [err |] | | |]; cbn [Race.step];
    repeat match goal with
           | |- context [match ?x with _ => _ end] => destruct x
           end;
    intros [= <-]; done.
Qed.

(** A goroutine at its send stays there once the caller has returned. *)
Lemma Race_step_sending (a : Race.Action) (st st' : Race.State)
    (res : option error) (err : error) :
  Race.caller st = Race.Returned res ->
  Race.goroutine st = Race.Sending err ->
  Race.step a st = Some st' ->
  Race.caller st' = Race.Returned res /\ Race.goroutine st' = Race.Sending err.
Proof.
  intros Hc Hg.
  destruct a as [d | | [err' |] | | |]; cbn [Race.step]; rewrite ?Hc, ?Hg; try done.
  destruct (0 <=? d)%Z; [| done]. by intros [= <-].
Qed.

Lemma Race_run_sending (schedule : list Race.Action) (st st' : Race.State)
    (res : option error) (err : error) :
  Race.caller st = Race.Returned res ->
  Race.goroutine st = Race.Sending err ->
  Race.run schedule st = Some st' ->
  Race.caller st' = Race.Returned res /\ Race.goroutine st' = Race.Sending err.
Proof.
  revert st. induction schedule as [|a schedule IH]; intros st Hc Hg; cbn [Race.run].
  - by intros [= <-].
  - destruct (Race.step a st) as [st1 |] eqn:Hstep; [| done].
    destruct (Race_step_sending a st st1 res err Hc Hg Hstep) as [Hc1 Hg1].
    by apply IH.
Qed.

Lemma Race_run_stop (schedule : list Race.Action) (st st' : Race.State) :
  Race.run schedule st = Some st' -> Race.stopSignalled st' = Race.stopSignalled st.
Proof.
  revert st. induction schedule as [|a schedule IH]; intros st; cbn [Race.run].
  - by intros [= <-].
  - destruct (Race.step a st) as [st1 |] eqn:Hstep; [| done].
    intros Hrun. rewrite (IH st1 Hrun). by apply (Race_step_stop a).
Qed.

(** C8 on the code.  When the timer fires first and the forwarder fails
    afterwards, the caller has returned ErrPortForwardingTimeout, the
    goroutine is at its send on the error channel, nothing has signalled the
    stop channel, and whatever happens next leaves all three as they are:
    the goroutine never gets past the send.  On the error branch the send
    has been received and the goroutine has exited. *)
Theorem C8_timeout_leaves_goroutine_at_send
    (err : error) (schedule : list Race.Action) (st : Race.State) :
  Race.run (Race.Elapse (waitRetry * 2)%Z :: Race.FireTimeout
              :: Race.ForwardReturns (Some err) :: schedule) Race.init = Some st ->
  Race.caller st = Race.Returned (Some (errors.asError ErrPortForwardingTimeout))
  /\ Race.goroutine st = Race.Sending err
  /\ Race.stopSignalled st = false
  /\ Race.run [Race.ForwardReturns (Some err); Race.FireErr] Race.init
     = Some {| Race.caller :=
                 Race.Returned (Some (errors.Wrap ErrForwardingPorts (Some err)));
               Race.goroutine := Race.Exited;
               Race.readyClosed := false; Race.errClosed := false;
               Race.stopSignalled := false; Race.elapsed := 0%Z |}.
Proof.
  intros Hrun.
  pose proof (Race_run_stop _ _ _ Hrun) as Hstop.
  cbn [Race.run Race.step] in Hrun.
  destruct (0 <=? waitRetry * 2)%Z eqn:Hpos; [| done].
  cbn in Hrun. rewrite Z.leb_refl in Hrun. cbn in Hrun.
  eapply Race_run_sending in Hrun as [Hc Hg]; [| done | done].
  done.
Qed.

End ClientProperties.

(** ** The properties at the example platform *)

Lemma C4_witness :
  fst (RunCommandInPod Example.active "validator-0" "validator-0" ["ls"]
         (Example.start Example.runningWorld))
  = ("ok", None).
Proof.
  refine (proj1 (C4_exec_result_classification Example.active "validator-0"
                   "validator-0" ["ls"] (Example.start Example.runningWorld)
                   Example.runningPod Example.runningWorld Example.runningWorld
                   Example.runningWorld Example.runningWorld
                   (Example.streamAnswer Example.runningWorld)
                   _ _ _ _ _ _ _ _) _ _);
    reflexivity.
Defined.

Lemma C5_witness :
  fst (IsPodRunning Example.active "validator-0" (Example.start Example.runningWorld))
  = (true, None).
Proof.
  refine (proj1 (proj1 (C5_IsPodRunning_ready_or_error Example.active "validator-0"
                          (Example.start Example.runningWorld) _)
                   Example.runningPod Example.runningWorld _));
    reflexivity.
Defined.



Lemma C7_witness :
  fst (PortForwardPod Example.active "validator-0" 8080 80
         (Example.start Example.runningWorld))
  = Some (errors.asError ErrPortForwardingTimeout).
Proof.
  refine (f_equal fst
    (proj1 (C7_port_forward_select_outcomes Example.active "validator-0" 8080 80
              (Example.start Example.runningWorld) Example.runningPod
              Example.runningWorld Example.runningWorld Example.runningWorld
              Example.runningWorld Example.runningWorld CaseTimeout
              _ _ _ _ _ _ _ _ _)));
    reflexivity.
Defined.

Lemma C8_witness :
  Race.run [Race.Elapse (waitRetry * 2)%Z; Race.FireTimeout;
            Race.ForwardReturns (Some Example.lostConnection)] Race.init
    = Some Example.leaked
  /\ Race.caller Example.leaked
     = Race.Returned (Some (errors.asError ErrPortForwardingTimeout))
  /\ Race.goroutine Example.leaked = Race.Sending Example.lostConnection
  /\ Race.stopSignalled Example.leaked = false.
Proof.
  assert (Hrun : Race.run [Race.Elapse (waitRetry * 2)%Z; Race.FireTimeout;
                            Race.ForwardReturns (Some Example.lostConnection)] Race.init
                 = Some Example.leaked) by reflexivity.
  destruct (C8_timeout_leaves_goroutine_at_send Example.lostConnection []
              Example.leaked Hrun) as (Hcaller & Hgoroutine & Hstop & _).
  exact (conj Hrun (conj Hcaller (conj Hgoroutine Hstop))).
Defined.

Lemma C9_witness :
  IsPodRunning Example.stopped "validator-0" (Example.start Example.runningWorld)
  = ((false,
      Some (errors.Wrap (errors.WithParams ErrGettingPod ["validator-0"])
              (Some (errors.asError ErrClientTerminated)))),
     Example.start Example.runningWorld).
Proof.
  refine (proj1 (proj2 (proj2 (proj2 (proj2
            (C9_terminated_client_fails_without_calls Example.stopped _))))) _ _).
  reflexivity.
Defined.

(** C9 as stated fails: on a terminated client PortForwardPod with local port
    0 returns ErrInvalidPort, which is not the terminated-client error and
    does not wrap it. *)
Lemma C9_counterexample :
  terminated Example.stopped = true
  /\ fst (PortForwardPod Example.stopped "validator-0" 0 8080
            (Example.start Example.runningWorld))
     = Some (errors.asError (errors.WithParams ErrInvalidPort ["0"]))
  /\ errors.Is (errors.asError (errors.WithParams ErrInvalidPort ["0"]))
       ErrClientTerminated = false
  /\ ~ (forall podName localPort remotePort s,
          exists err,
            fst (PortForwardPod Example.stopped podName localPort remotePort s) = Some err
            /\ errors.Is err ErrClientTerminated = true).
Proof.
  repeat split; try reflexivity.
  intros Hall.
  destruct (Hall "validator-0" 0%Z 8080%Z (Example.start Example.runningWorld))
    as (err & Hres & His).
  vm_compute in Hres. injection Hres as <-. vm_compute in His. discriminate His.
Qed.

Lemma C10_witness :
  CallCreate "test"
    (preparePod (Example.podConfig [Example.dataVolume] [Example.cfgFile]) false)
    (Ok (preparePod (Example.podConfig [Example.dataVolume] [Example.cfgFile]) false))
    ∈ calls (Example.start Example.emptyWorld)
  \/ (preparePod (Example.podConfig [Example.dataVolume] [Example.cfgFile]) false
      = preparePod (Example.podConfig [Example.dataVolume] [Example.cfgFile]) false
      /\ v1.InitContainers
           (v1.Spec (preparePod (Example.podConfig [Example.dataVolume] [Example.cfgFile])
                       false)) = []).
Proof.
  refine (C10_replace_deploys_without_init_container 1 Example.active
            (Example.podConfig [Example.dataVolume] [Example.cfgFile]) None
            (Example.start Example.emptyWorld) _ _ _ _).
  left. apply (list_elem_of_lookup_2 _ 3). reflexivity.
Defined.

(** * More of pod.go *)

(** ** Mounts and pod volumes *)

Lemma preparePodSpec_sidecar_volumes (podSpec : v1.PodSpec)
    (sidecars : list ContainerConfig) :
  v1.Volumes
    (fold_left (fun podSpec sidecarConfig =>
       let sidecarContainer := prepareContainer sidecarConfig in
       let sidecarVolumes := preparePodVolumes sidecarConfig in
       {| v1.PodSpec_ServiceAccountName := v1.PodSpec_ServiceAccountName podSpec;
          v1.PodSpec_SecurityContext := v1.PodSpec_SecurityContext podSpec;
          v1.InitContainers := v1.InitContainers podSpec;
          v1.Containers := v1.Containers podSpec ++ [sidecarContainer];
          v1.Volumes := v1.Volumes podSpec ++ sidecarVolumes |})
       sidecars podSpec)
  = v1.Volumes podSpec ++ flat_map preparePodVolumes sidecars.
Proof.
  revert podSpec. induction sidecars as [|sc sidecars IH]; intros podSpec; simpl.
  - by rewrite app_nil_r.
  - rewrite IH. simpl. by rewrite <- app_assoc.
Qed.

Lemma preparePodSpec_Volumes spec init :
  v1.Volumes (preparePodSpec spec init)
  = preparePodVolumes (PodContainerConfig spec)
    ++ flat_map preparePodVolumes (SidecarConfigs spec).
Proof. unfold preparePodSpec. by rewrite preparePodSpec_sidecar_volumes. Qed.

Lemma buildPodVolumes_claim (name : string) (volumes : list Volume) (files : list File) :
  volumes <> [] ->
  {| v1.Volume_Name := name; v1.Source := v1.PersistentVolumeClaim name |}
    ∈ buildPodVolumes name (length volumes) (length files).
Proof.
  intros Hne. destruct volumes; [done |]. unfold buildPodVolumes. simpl.
  destruct (length files); simpl; left.
Qed.

Lemma buildPodVolumes_configmap (name : string) (volumes : list Volume)
    (files : list File) :
  files <> [] ->
  {| v1.Volume_Name := name +:+ podFilesConfigmapNameSuffix;
     v1.Source := v1.ConfigMap name defaultFileModeForVolume |}
    ∈ buildPodVolumes name (length volumes) (length files).
Proof.
  intros Hne. destruct files; [done |]. unfold buildPodVolumes. simpl.
  destruct (length volumes); simpl; [left | right; left].
Qed.

Lemma buildContainerVolumes_names name volumes files mount :
  mount ∈ buildContainerVolumes name volumes files ->
  (v1.VolumeMount_Name mount = name /\ volumes <> [])
  \/ (v1.VolumeMount_Name mount = name +:+ podFilesConfigmapNameSuffix /\ files <> []).
Proof.
  rewrite buildContainerVolumes_eq. intros [Hm | Hm]%elem_of_app.
  - apply list_elem_of_In, in_map_iff in Hm as (v & <- & Hin).
    left. split; [done |]. by destruct volumes.
  - apply list_elem_of_In, in_map_iff in Hm as ([k file'] & <- & Hf).
    right. split; [done |]. apply filter_In in Hf as [Hin _].
    destruct files; [| done]. by apply list_elem_of_In, elem_of_nil in Hin.
Qed.

Lemma buildInitContainerVolumes_names name volumes files mount :
  mount ∈ buildInitContainerVolumes name volumes files ->
  v1.VolumeMount_Name mount = name
  \/ (v1.VolumeMount_Name mount = name +:+ podFilesConfigmapNameSuffix /\ files <> []).
Proof.
  rewrite buildInitContainerVolumes_eq.
  destruct (_ && _); [by intros ?%elem_of_nil |].
  intros [-> | Hm]%elem_of_cons; [by left |].
  apply elem_of_lookup_imap in Hm as (i & file & -> & Hlook).
  right. split; [done |]. by destruct files.
Qed.

Lemma preparePodVolumes_resolves config mount :
  mount ∈ v1.VolumeMounts (prepareContainer config) ->
  exists volume, volume ∈ preparePodVolumes config
                 /\ v1.Volume_Name volume = v1.VolumeMount_Name mount.
Proof.
  cbn [prepareContainer v1.VolumeMounts]. intros Hm.
  apply buildContainerVolumes_names in Hm as [[-> Hne] | [-> Hne]].
  - eexists. split; [by apply buildPodVolumes_claim |]. done.
  - eexists. split; [by apply buildPodVolumes_configmap |]. done.
Qed.

(** X1. Every volume mount of every container of the pod spec, the init
    container included, names a volume that the pod spec declares. *)
Theorem X1_mounts_name_declared_volumes
    (spec : PodConfig) (init : bool) (container : v1.Container) (mount : v1.VolumeMount) :
  container ∈ v1.InitContainers (preparePodSpec spec init)
              ++ v1.Containers (preparePodSpec spec init) ->
  mount ∈ v1.VolumeMounts container ->
  exists volume,
    volume ∈ v1.Volumes (preparePodSpec spec init)
    /\ v1.Volume_Name volume = v1.VolumeMount_Name mount.
Proof.
  rewrite preparePodSpec_InitContainers, preparePodSpec_Containers,
    preparePodSpec_Volumes.
  intros [Hc | Hc]%elem_of_app Hm.
  - unfold prepareInitContainers in Hc.
    destruct init; [| by apply elem_of_nil in Hc].
    destruct (Volumes (PodContainerConfig spec)) as [|v vs] eqn:Hv;
      [by apply elem_of_nil in Hc |].
    cbn [negb orb length Nat.eqb] in Hc.
    apply list_elem_of_singleton in Hc as ->. cbn [v1.VolumeMounts] in Hm.
    apply buildInitContainerVolumes_names in Hm as [-> | [-> Hne]].
    + exists {| v1.Volume_Name := Name (PodContainerConfig spec);
                v1.Source := v1.PersistentVolumeClaim (Name (PodContainerConfig spec)) |}.
      split; [| done]. apply elem_of_app. left.
      unfold preparePodVolumes. apply buildPodVolumes_claim. by rewrite Hv.
    + exists {| v1.Volume_Name :=
                  Name (PodContainerConfig spec) +:+ podFilesConfigmapNameSuffix;
                v1.Source := v1.ConfigMap (Name (PodContainerConfig spec))
                               defaultFileModeForVolume |}.
      split; [| done]. apply elem_of_app. left.
      unfold preparePodVolumes. by apply buildPodVolumes_configmap.
  - apply elem_of_cons in Hc as [-> | Hc].
    + destruct (preparePodVolumes_resolves _ _ Hm) as (volume & Hin & Hname).
      exists volume. split; [| done]. apply elem_of_app. by left.
    + apply list_elem_of_In, in_map_iff in Hc as (sidecar & <- & Hside).
      destruct (preparePodVolumes_resolves _ _ Hm) as (volume & Hin & Hname).
      exists volume. split; [| done]. apply elem_of_app. right.
      apply list_elem_of_In, in_flat_map. exists sidecar.
      split; [done | by apply list_elem_of_In].
Qed.

Lemma X1_witness :
  exists volume,
    volume ∈ v1.Volumes (preparePodSpec
                           (Example.podConfig [Example.dataVolume] [Example.keyFile]) true)
    /\ v1.Volume_Name volume = "validator-0-config".
Proof.
  refine (X1_mounts_name_declared_volumes
            (Example.podConfig [Example.dataVolume] [Example.keyFile]) true
            _ (fileMount "validator-0" 0 Example.keyFile) _ _).
  - left.
  - right. left.
Defined.

(** ** The main container's mounts *)

Lemma HasPrefix_append (p t : string) : strings.HasPrefix (p +:+ t) p = true.
Proof.
  induction p as [|c p IH]; [by destruct t |].
  change (String c p +:+ t) with (String c (p +:+ t)).
  cbn [strings.HasPrefix]. by rewrite Ascii.eqb_refl.
Qed.

Lemma shouldAddFile_true volumes file :
  shouldAddFile volumes file = true
  <-> forall volume, volume ∈ volumes ->
        strings.HasPrefix (Dest file) (Path volume) = false.
Proof.
  unfold shouldAddFile. rewrite negb_true_iff. split.
  - intros Hnone volume Hin. apply not_true_iff_false. intros Hpre.
    apply not_true_iff_false in Hnone. apply Hnone, existsb_exists.
    exists volume. split; [by apply list_elem_of_In | done].
  - intros Hall. apply not_true_iff_false. intros (v & Hin & Hpre)%existsb_exists.
    apply list_elem_of_In in Hin. by rewrite (Hall v Hin) in Hpre.
Qed.

(** X2. The mounts of the main container start with one mount per volume, in
    the order of the volumes, each at the volume's path; a file whose
    destination has no volume path as a prefix is mounted at its destination
    from the files config map, with its index in the file list as sub-path;
    there are never more mounts than volumes and files together. *)
Theorem X2_main_container_mounts
    (name : string) (volumes : list Volume) (files : list File) :
  (forall i volume, volumes !! i = Some volume ->
     buildContainerVolumes name volumes files !! i = Some (volumeMount name volume))
  /\ (forall n file, files !! n = Some file ->
        (forall volume, volume ∈ volumes ->
           strings.HasPrefix (Dest file) (Path volume) = false) ->
        fileMount name n file ∈ buildContainerVolumes name volumes files)
  /\ length volumes <= length (buildContainerVolumes name volumes files)
     <= length volumes + length files.
Proof.
  rewrite buildContainerVolumes_eq. split; [| split].
  - intros i volume Hi. rewrite lookup_app_l.
    + change (map ?f ?l) with (f <$> l). by rewrite list_lookup_fmap, Hi.
    + rewrite length_map. by eapply lookup_lt_Some.
  - intros n file Hn Hfree. apply elem_of_app. right.
    apply list_elem_of_In, in_map_iff. exists (n, file). split; [done |].
    apply filter_In. split.
    + apply list_elem_of_In, list_elem_of_lookup. exists n.
      by rewrite list_lookup_imap, Hn.
    + by apply shouldAddFile_true.
  - rewrite length_app, !length_map.
    pose proof (filter_length_le
                  (fun nfile : nat * File => shouldAddFile volumes (snd nfile))
                  (imap pair files)) as Hle.
    rewrite length_imap in Hle. lia.
Qed.

Lemma X2_witness :
  fileMount "validator-0" 1 Example.keyFile
    ∈ buildContainerVolumes "validator-0" [Example.dataVolume]
        [Example.cfgFile; Example.keyFile].
Proof.
  refine (proj1 (proj2 (X2_main_container_mounts "validator-0" [Example.dataVolume]
                          [Example.cfgFile; Example.keyFile])) 1 Example.keyFile
            eq_refl _).
  intros volume Hin. apply list_elem_of_singleton in Hin. rewrite Hin. reflexivity.
Defined.

(** X5. Coverage by a volume is a comparison of strings: a file whose
    destination is a volume's path followed by any text at all, a path
    separator or not, gets no mount in the main container; a volume with an
    empty path so covers every file. *)
Theorem X5_coverage_is_by_string_prefix
    (name : string) (volumes : list Volume) (files : list File)
    (volume : Volume) (n : nat) (file : File) (rest : string) :
  volume ∈ volumes ->
  files !! n = Some file ->
  Dest file = Path volume +:+ rest ->
  (forall mount, mount ∈ buildContainerVolumes name volumes files ->
     v1.MountPath mount = Dest file -> v1.VolumeMount_Name mount = name)
  /\ (Path volume = EmptyString ->
      buildContainerVolumes name volumes files = map (volumeMount name) volumes).
Proof.
  intros Hin Hn Hdest. split.
  - intros mount Hm Hpath.
    rewrite buildContainerVolumes_eq in Hm.
    apply elem_of_app in Hm as [Hm | Hm].
    + by apply list_elem_of_In, in_map_iff in Hm as (v & <- & _).
    + apply list_elem_of_In, in_map_iff in Hm as ([k file'] & <- & Hf).
      apply filter_In in Hf as [_ Hadd]. simpl in *.
      rewrite (shouldAddFile_same_dest volumes file' file Hpath) in Hadd.
      rewrite (shouldAddFile_covered volumes file volume Hin) in Hadd; [done |].
      rewrite Hdest. apply HasPrefix_append.
  - intros Hempty. rewrite buildContainerVolumes_eq.
    rewrite <- (app_nil_r (map (volumeMount name) volumes)) at 2. f_equal.
    assert (Hnone : forall l : list (nat * File),
              List.filter (fun nfile => shouldAddFile volumes (snd nfile)) l = []).
    { induction l as [|[k f] l IH]; [done |]. simpl.
      rewrite (shouldAddFile_covered volumes f volume Hin); [done |].
      rewrite Hempty. by destruct (Dest f). }
    by rewrite Hnone.
Qed.

Lemma X5_witness :
  fileMount "validator-0" 0 {| Source := "/tmp/dump.sql"; Dest := "/database/dump.sql" |}
    ∉ buildContainerVolumes "validator-0" [Example.dataVolume]
        [ {| Source := "/tmp/dump.sql"; Dest := "/database/dump.sql" |} ].
Proof.
  intros Hin.
  assert (Hvol : Example.dataVolume ∈ [Example.dataVolume]) by left.
  pose proof (proj1 (X5_coverage_is_by_string_prefix "validator-0" [Example.dataVolume]
                       [ {| Source := "/tmp/dump.sql"; Dest := "/database/dump.sql" |} ]
                       Example.dataVolume 0
                       {| Source := "/tmp/dump.sql"; Dest := "/database/dump.sql" |}
                       "base/dump.sql" Hvol eq_refl eq_refl) _ Hin eq_refl) as Hname.
  discriminate Hname.
Defined.

(** ** Sub-paths *)

Lemma itoa_inj (n m : nat) : fmt.itoa n = fmt.itoa m -> n = m.
Proof.
  unfold fmt.itoa. intros Heq.
  assert (Hnil : forall k, Nat.to_uint k <> Decimal.Nil).
  { intros k Hk. pose proof (DecimalNat.Unsigned.of_to k) as Hof.
    rewrite Hk in Hof. cbn in Hof. by subst k. }
  apply (f_equal NilZero.uint_of_string) in Heq.
  rewrite !NilZero.usu in Heq by apply Hnil.
  injection Heq as Heq. by apply DecimalNat.Unsigned.to_uint_inj.
Qed.

Lemma itoa_nonempty (n : nat) : fmt.itoa n <> EmptyString.
Proof.
  unfold fmt.itoa. intros Heq.
  apply (f_equal NilZero.uint_of_string) in Heq.
  destruct (NilZero.usu_gen (Nat.to_uint n)) as [Hu | Hu]; by rewrite Hu in Heq.
Qed.

Lemma NoDup_map_filter {A B} (f : A -> B) (p : A -> bool) (l : list A) :
  NoDup (map f l) -> NoDup (map f (List.filter p l)).
Proof.
  induction l as [|x l IH]; [done |]. cbn [map List.filter].
  intros [Hx Hl]%NoDup_cons. destruct (p x); [| by apply IH].
  cbn [map]. apply NoDup_cons. split; [| by apply IH].
  intros Hin. apply Hx.
  apply list_elem_of_In, in_map_iff in Hin as (y & Heq & Hy).
  apply filter_In in Hy as [Hy _].
  apply list_elem_of_In, in_map_iff. by exists y.
Qed.

Lemma NoDup_ordinals {A} (l : list A) :
  NoDup (map (fun nx : nat * A => fmt.itoa (fst nx)) (imap pair l)).
Proof.
  rewrite (map_imap_pair (fun n _ => fmt.itoa n)).
  apply NoDup_alt. intros i j x Hi Hj.
  rewrite list_lookup_imap in Hi, Hj.
  destruct (l !! i); [| done]. destruct (l !! j); [| done].
  cbn in Hi, Hj. apply itoa_inj. congruence.
Qed.

Lemma filter_file_mounts (name : string) (l : list (nat * File)) :
  List.filter
    (fun mount => String.eqb (v1.VolumeMount_Name mount)
                    (name +:+ podFilesConfigmapNameSuffix))
    (map (fun nfile => fileMount name (fst nfile) (snd nfile)) l)
  = map (fun nfile => fileMount name (fst nfile) (snd nfile)) l.
Proof.
  induction l as [|[k f] l IH]; [done |].
  cbn [map List.filter fileMount v1.VolumeMount_Name fst snd].
  rewrite String.eqb_refl. f_equal. apply IH.
Qed.

(** X3. The sub-paths of the init container's mounts are pairwise distinct,
    and so are the sub-paths of the file mounts of the main container: two
    files never share a sub-path of the files config map, whatever their
    destinations. *)
Theorem X3_sub_paths_are_distinct
    (name : string) (volumes : list Volume) (files : list File) :
  NoDup (map v1.SubPath (buildInitContainerVolumes name volumes files))
  /\ NoDup (map v1.SubPath
              (List.filter
                 (fun mount => String.eqb (v1.VolumeMount_Name mount)
                                 (name +:+ podFilesConfigmapNameSuffix))
                 (buildContainerVolumes name volumes files))).
Proof.
  split.
  - rewrite buildInitContainerVolumes_eq.
    destruct (_ && _); [constructor |].
    cbn [map v1.SubPath]. apply NoDup_cons. split.
    + intros Hin. apply list_elem_of_In, in_map_iff in Hin as (mount & Hsub & Hin).
      apply list_elem_of_In, elem_of_lookup_imap in Hin as (i & file & -> & _).
      by apply itoa_nonempty in Hsub.
    + rewrite <- (map_imap_pair (fileMount name)), map_map. cbn [fileMount v1.SubPath].
      apply NoDup_ordinals.
  - rewrite buildContainerVolumes_eq, List.filter_app.
    assert (Hvol : List.filter
              (fun mount => String.eqb (v1.VolumeMount_Name mount)
                              (name +:+ podFilesConfigmapNameSuffix))
              (map (volumeMount name) volumes) = []).
    { induction volumes as [|v vs IH]; [done |]. cbn [map List.filter].
      cbn [volumeMount v1.VolumeMount_Name].
      destruct (String.eqb_spec name (name +:+ podFilesConfigmapNameSuffix)) as [Heq |];
        [by apply append_neq_self in Heq | done]. }
    rewrite Hvol. cbn [app].
    rewrite filter_file_mounts, map_map. cbn [fileMount v1.SubPath].
    apply NoDup_map_filter, NoDup_ordinals.
Qed.

Lemma TrimLeft_slashes (path : string) :
  firstByte (strings.TrimLeft path "/") <> Some "/"%char
  /\ (exists slashes,
        allSlashes slashes = true /\ path = slashes +:+ strings.TrimLeft path "/")
  /\ (strings.TrimLeft path "/" = EmptyString <-> allSlashes path = true).
Proof.
  induction path as [|c path (IH1 & (slashes & IH2 & IH3) & IH4)].
  - repeat split; try done. by exists EmptyString.
  - cbn [strings.TrimLeft strings.inCutset allSlashes].
    destruct (Ascii.eqb_spec c "/") as [-> | Hne]; cbn [orb andb].
    + split; [done |]. split; [| done].
      exists (String "/" slashes). split; [by cbn; rewrite IH2 |].
      change (String "/" slashes +:+ ?t) with (String "/" (slashes +:+ t)).
      by rewrite <- IH3.
    + split; [cbn; congruence |]. split; [by exists EmptyString | done].
Qed.

(** X4. The sub-path of a volume mount is the volume's path without its
    leading separators: it never starts with a separator, the path is some
    separators followed by it, and it is empty exactly when the path consists
    of separators only (an empty path included). *)
Theorem X4_volume_sub_path_has_no_leading_separator (name : string) (volume : Volume) :
  firstByte (v1.SubPath (volumeMount name volume)) <> Some "/"%char
  /\ (exists slashes,
        allSlashes slashes = true
        /\ Path volume = slashes +:+ v1.SubPath (volumeMount name volume))
  /\ (v1.SubPath (volumeMount name volume) = EmptyString
      <-> allSlashes (Path volume) = true).
Proof. apply TrimLeft_slashes. Qed.

(** ** The staging script *)

Lemma strings_Join_snoc (l : list string) (x : string) :
  strings.Join (l ++ [x]) EmptyString = strings.Join l EmptyString +:+ x.
Proof.
  induction l as [|e l IH]; [done |].
  cbn [app]. by rewrite !strings_Join_cons, IH, string_app_assoc.
Qed.

Lemma strings_Join_ends (l : list string) (ending : string) :
  l <> [] ->
  Forall (fun cmd => exists body, cmd = body +:+ ending) l ->
  exists body, strings.Join l EmptyString = body +:+ ending.
Proof.
  induction l as [|e l IH]; [done |]. intros _ Hall.
  apply Forall_cons in Hall as [[body ->] Hall].
  destruct l as [|e' l].
  - by exists body.
  - destruct IH as [body' Hbody']; [done | done |].
    rewrite strings_Join_cons, Hbody'. exists ((body +:+ ending) +:+ body').
    symmetry. apply string_app_assoc.
Qed.

Lemma parentDirCmd_ends folder : exists body, parentDirCmd folder = body +:+ " && ".
Proof.
  exists ("mkdir -p " +:+ knuuPath +:+ folder). unfold parentDirCmd.
  by rewrite !string_app_assoc.
Qed.

Lemma copyFileToKnuu_ends file : exists body, copyFileToKnuu file = body +:+ " && ".
Proof.
  exists ("cp " +:+ Dest file +:+ " " +:+ filepath.Join [knuuPath; Dest file]).
  unfold copyFileToKnuu. by rewrite !string_app_assoc.
Qed.

Lemma fileCmds_end (files : list File) (dirsProcessed : gmap string bool) :
  Forall (fun cmd => exists body, cmd = body +:+ " && ") (fileCmds dirsProcessed files).
Proof.
  revert dirsProcessed. induction files as [|file files IH]; intros dp; cbn [fileCmds].
  - constructor.
  - destruct (dp !! filepath.Dir (Dest file)).
    + apply Forall_cons. split; [apply copyFileToKnuu_ends | apply IH].
    + apply Forall_cons. split; [apply parentDirCmd_ends |].
      apply Forall_cons. split; [apply copyFileToKnuu_ends | apply IH].
Qed.

Lemma lastVolumeCmd_ends (volumes : list Volume) (volume : Volume) :
  exists body,
    volumeCmd (length (volumes ++ [volume])) (length volumes) volume = body +:+ " ;fi".
Proof.
  unfold volumeCmd. rewrite length_app. cbn [length].
  destruct (Z.ltb_spec (Z.of_nat (length volumes))
              (Z.of_nat (length volumes + 1) - 1)) as [Hlt | _]; [lia |].
  by eexists.
Qed.

(** X6. With at least one volume the staging script ends with the closing
    [;fi] of the last volume's command; with no volume it ends with a
    dangling [&&].  An init container is only built for a container with
    volumes, so the script of every init container ends with [;fi]. *)
Theorem X6_staging_script_ending (volumes : list Volume) (files : list File) :
  (volumes <> [] ->
     exists body,
       strings.Join (initContainerCmds volumes files) EmptyString = body +:+ " ;fi")
  /\ (volumes = [] ->
      exists body,
        strings.Join (initContainerCmds volumes files) EmptyString = body +:+ " && ")
  /\ (forall config init container,
        container ∈ prepareInitContainers config init ->
        exists body, v1.Container_Command container = ["sh"; "-c"; body +:+ " ;fi"]).
Proof.
  assert (Hfi : forall vs fs, vs <> [] ->
            exists body,
              strings.Join (initContainerCmds vs fs) EmptyString = body +:+ " ;fi").
  { intros vs fs Hne. rewrite initContainerCmds_eq.
    destruct (exists_last Hne) as (front & last & ->).
    rewrite imap_app. cbn [imap]. rewrite Nat.add_0_r.
    destruct (lastVolumeCmd_ends front last) as [body Hbody]. rewrite Hbody.
    rewrite !app_assoc, strings_Join_snoc. eexists. by rewrite <- string_app_assoc. }
  split; [apply Hfi |]. split.
  - intros ->. rewrite initContainerCmds_eq. cbn [imap]. rewrite app_nil_r.
    apply strings_Join_ends; [done |].
    apply Forall_cons. split; [by exists "set -xe" |].
    apply Forall_cons. split; [by exists "mkdir -p /knuu" |]. apply fileCmds_end.
  - intros config init container Hin. unfold prepareInitContainers in Hin.
    destruct init; [| by apply elem_of_nil in Hin].
    destruct (Volumes config) as [|v vs] eqn:Hv; [by apply elem_of_nil in Hin |].
    cbn [negb orb length Nat.eqb] in Hin.
    apply list_elem_of_singleton in Hin as ->. cbn [v1.Container_Command].
    destruct (Hfi (v :: vs) (Files config)) as [body Hbody]; [done |].
    exists body. unfold buildInitContainerCommand. by rewrite Hbody.
Qed.

Lemma X6_witness :
  exists body,
    strings.Join (initContainerCmds [Example.dataVolume] [Example.cfgFile]) EmptyString
    = body +:+ " ;fi".
Proof.
  apply (proj1 (X6_staging_script_ending [Example.dataVolume] [Example.cfgFile])).
  discriminate.
Defined.

Lemma fileCmds_copies (files : list File) (dirsProcessed : gmap string bool) :
  List.filter startsWithCp (fileCmds dirsProcessed files) = map copyFileToKnuu files.
Proof.
  revert dirsProcessed. induction files as [|file files IH]; intros dp; [done |].
  cbn [fileCmds map].
  destruct (dp !! filepath.Dir (Dest file)); cbn [List.filter].
  - change (startsWithCp (copyFileToKnuu file)) with true. cbn. by rewrite IH.
  - change (startsWithCp (parentDirCmd (filepath.Dir (Dest file)))) with false.
    change (startsWithCp (copyFileToKnuu file)) with true. cbn. by rewrite IH.
Qed.

Lemma volumeCmds_no_copy (len : nat) (l : list (nat * Volume)) :
  List.filter startsWithCp (map (fun iv => volumeCmd len (fst iv) (snd iv)) l) = [].
Proof.
  induction l as [|[i v] l IH]; [done |]. cbn [map List.filter fst snd].
  unfold startsWithCp at 1. rewrite firstByte_volumeCmd. cbn. apply IH.
Qed.

(** X7. The commands of the staging script that start with [cp] are one copy
    per file, in the order of the file list, from the file's destination to
    its path under the staging root; files under a volume's path are copied
    like the others. *)
Theorem X7_staging_script_copies_every_file (volumes : list Volume) (files : list File) :
  List.filter startsWithCp (initContainerCmds volumes files) = map copyFileToKnuu files.
Proof.
  rewrite initContainerCmds_eq, <- (map_imap_pair (volumeCmd (length volumes))).
  rewrite !List.filter_app, fileCmds_copies, volumeCmds_no_copy.
  cbn. by rewrite app_nil_r.
Qed.

(** ** Environment variables *)

(** X8. buildEnv returns one variable per entry of the map: as many
    variables as entries, no name twice, and a variable with a name and a
    value exactly when the map holds that value under that name. *)
Theorem X8_buildEnv_one_variable_per_entry (envMap : gmap string string) :
  length (buildEnv envMap) = size envMap
  /\ NoDup (map v1.EnvVar_Name (buildEnv envMap))
  /\ (forall name value,
        {| v1.EnvVar_Name := name; v1.EnvVar_Value := value |} ∈ buildEnv envMap
        <-> envMap !! name = Some value).
Proof.
  unfold buildEnv. split; [| split].
  - by rewrite length_map, length_map_to_list.
  - rewrite map_map. cbn [v1.EnvVar_Name]. apply NoDup_fst_map_to_list.
  - intros name value. rewrite <- elem_of_map_to_list. split.
    + intros Hin. apply list_elem_of_In, in_map_iff in Hin as ([k v] & [= <- <-] & Hin).
      by apply list_elem_of_In.
    + intros Hin. apply list_elem_of_In, in_map_iff. exists (name, value).
      split; [done | by apply list_elem_of_In].
Qed.

(** ** Sidecars and the init container *)

(** X9. The containers of the pod spec are the primary container followed
    by the sidecars in the order given, and the volumes are those of the
    primary container followed by those of each sidecar.  The init
    containers depend on the primary container alone: sidecars never get
    one, whatever volumes they declare.  An init container is named after
    the primary container with the suffix [-init], uses its image, and runs
    as user 0. *)
Theorem X9_pod_spec_sidecars_and_init_container (spec : PodConfig) (init : bool) :
  v1.Containers (preparePodSpec spec init)
    = prepareContainer (PodContainerConfig spec)
        :: map prepareContainer (SidecarConfigs spec)
  /\ v1.Volumes (preparePodSpec spec init)
     = preparePodVolumes (PodContainerConfig spec)
       ++ flat_map preparePodVolumes (SidecarConfigs spec)
  /\ (forall spec',
        PodContainerConfig spec' = PodContainerConfig spec ->
        v1.InitContainers (preparePodSpec spec' init)
        = v1.InitContainers (preparePodSpec spec init))
  /\ (forall container,
        container ∈ v1.InitContainers (preparePodSpec spec init) ->
        v1.Container_Name container
          = Name (PodContainerConfig spec) +:+ initContainerNameSuffix
        /\ v1.Container_Image container = Image (PodContainerConfig spec)
        /\ v1.Container_SecurityContext container
           = Some {| v1.RunAsUser := Some 0%Z |}).
Proof.
  split; [apply preparePodSpec_Containers |].
  split; [apply preparePodSpec_Volumes |]. split.
  - intros spec' Hsame. by rewrite !preparePodSpec_InitContainers, Hsame.
  - intros container. rewrite preparePodSpec_InitContainers.
    unfold prepareInitContainers.
    destruct (_ || _); [by intros ?%elem_of_nil |].
    by intros ->%list_elem_of_singleton.
Qed.

Lemma X9_witness :
  v1.InitContainers
    (preparePodSpec
       {| Namespace := "test"; PodName := "validator-0"; Labels := ∅;
          ServiceAccountName := "default"; FsGroup := 0%Z;
          PodContainerConfig := Example.container [] [];
          SidecarConfigs := [Example.container [Example.dataVolume] []];
          Annotations := ∅ |} true)
  = v1.InitContainers (preparePodSpec (Example.podConfig [] []) true).
Proof.
  apply (proj1 (proj2 (proj2 (X9_pod_spec_sidecars_and_init_container
                                (Example.podConfig [] []) true)))).
  reflexivity.
Defined.

(** ** More of the client operations *)

Section MoreClientProperties.

Context {W : Type} {cluster : Cluster W} {pkg : Package}.

Implicit Types (c : Client) (s : State W).

(** Runs an operation call by call, splitting on every answer. *)
Ltac run_calls :=
  unfold bind, getPod, call, ret;
  repeat (cbn [world calls fst snd];
    first
    [ match goal with
      | |- context [terminated ?c] => destruct (terminated c) eqn:?
      | |- context [Pods_Get ?a ?b ?w] => destruct (Pods_Get a b w) as [[?|?] ?] eqn:?
      | |- context [Pods_Create ?a ?b ?w] =>
          destruct (Pods_Create a b w) as [[?|?] ?] eqn:?
      | |- context [Pods_Delete ?a ?b ?g ?w] =>
          destruct (Pods_Delete a b g w) as [[?|] ?] eqn:?
      | |- context [Done_or_After ?d ?w] => destruct (Done_or_After d w) as [[?|] ?] eqn:?
      | |- context [getClusterConfig ?w] => destruct (getClusterConfig w) as [[?|] ?] eqn:?
      | |- context [NewSPDYExecutor ?r ?w] =>
          destruct (NewSPDYExecutor r w) as [[?|] ?] eqn:?
      | |- context [StreamWithContext ?r ?w] =>
          destruct (StreamWithContext r w) as [? ?] eqn:?
      | |- context [RoundTripperFor ?w] => destruct (RoundTripperFor w) as [[?|] ?] eqn:?
      | |- context [portforward_New ?a ?b ?p ?w] =>
          destruct (portforward_New a b p w) as [[? [?|]] ?] eqn:?
      | |- context [ForwardPorts_select ?d ?w] =>
          destruct (ForwardPorts_select d w) as [? ?] eqn:?
      end
    | match goal with
      | |- context [match ?x with _ => _ end] => destruct x eqn:?
      | |- context [if ?x then _ else _] => destruct x eqn:?
      end ]);
  cbn [world calls fst snd].

(** X10. Validation comes before any call: when an argument of DeployPod
    (on a client that is not terminated), RunCommandInPod or PortForwardPod
    is rejected by its validator, the operation returns the validator's
    error and calls nothing. *)
Theorem X10_validation_failure_makes_no_call c s (err : error) :
  (forall podConfig init,
     terminated c = false ->
     validatePodConfig podConfig = Some err ->
     DeployPod c podConfig init s = (Err err, s))
  /\ (forall podName containerName cmd,
        validatePodName podName = Some err
        \/ (validatePodName podName = None
            /\ validateContainerName containerName = Some err)
        \/ (validatePodName podName = None
            /\ validateContainerName containerName = None
            /\ validateCommand cmd = Some err) ->
        RunCommandInPod c podName containerName cmd s = ((EmptyString, Some err), s))
  /\ (forall podName localPort remotePort,
        validatePodName podName = Some err
        \/ (validatePodName podName = None /\ validatePort localPort = Some err)
        \/ (validatePodName podName = None /\ validatePort localPort = None
            /\ validatePort remotePort = Some err) ->
        PortForwardPod c podName localPort remotePort s = (Some err, s)).
Proof.
  split; [| split].
  - intros podConfig init Ht Hv. unfold DeployPod. by rewrite Ht, Hv.
  - intros podName containerName cmd [H1 | [[H1 H2] | (H1 & H2 & H3)]];
      unfold RunCommandInPod; rewrite ?H1, ?H2, ?H3; done.
  - intros podName localPort remotePort [H1 | [[H1 H2] | (H1 & H2 & H3)]];
      unfold PortForwardPod; rewrite ?H1, ?H2, ?H3; done.
Qed.

(** X11. RunCommandInPod returns the empty string whenever it returns an
    error, so the captured output of a failed command reaches the caller
    only inside the error.  It returns no error only after a stream that
    reported no error and left the standard-error buffer empty, and then it
    returns that stream's standard output. *)
Theorem X11_exec_output_only_on_success
    c (podName containerName : string) (cmd : list string) s :
  (snd (fst (RunCommandInPod c podName containerName cmd s)) <> None ->
   fst (fst (RunCommandInPod c podName containerName cmd s)) = EmptyString)
  /\ (snd (fst (RunCommandInPod c podName containerName cmd s)) = None ->
      exists before out,
        calls (snd (RunCommandInPod c podName containerName cmd s))
          = before ++ [CallStream (execRequest c podName containerName cmd) out]
        /\ streamErr out = None
        /\ stderr out = EmptyString
        /\ fst (fst (RunCommandInPod c podName containerName cmd s)) = stdout out).
Proof.
  unfold RunCommandInPod. run_calls; split; try done.
  intros _. eexists _, _. split; [done |]. repeat split; try done.
  apply String_length_zero. by apply negb_false_iff.
Qed.

(** X12. RunCommandInPod calls, in this order, the Get of the pod, the
    cluster configuration, the executor and the stream; PortForwardPod calls
    the Get, the cluster configuration, the round tripper, the forwarder's
    constructor and the forwarding itself.  Neither calls anything else.
    On a client that is not terminated and with arguments that validate, the
    Get is made.  Every call but the last one made succeeded, and when fewer
    calls than the whole sequence were made the last one failed: the
    operation stops at the first failure and not before.  It returns no
    error exactly when the whole sequence was made and no call failed. *)
Theorem X12_exec_and_port_forward_call_order c s :
  (forall podName containerName cmd,
     exists made,
       calls (snd (RunCommandInPod c podName containerName cmd s)) = calls s ++ made
       /\ map callKind made `prefix_of` [KGet; KClusterConfig; KNewExecutor; KStream]
       /\ (terminated c = false ->
           validatePodName podName = None ->
           validateContainerName containerName = None ->
           validateCommand cmd = None ->
           made <> [])
       /\ forallb (fun call => negb (callFailed call)) (removelast made) = true
       /\ (forall lastCall,
             last made = Some lastCall -> length made < 4 -> callFailed lastCall = true)
       /\ (snd (fst (RunCommandInPod c podName containerName cmd s)) = None
           <-> length made = 4
               /\ forallb (fun call => negb (callFailed call)) made = true))
  /\ (forall podName localPort remotePort,
        exists made,
          calls (snd (PortForwardPod c podName localPort remotePort s)) = calls s ++ made
          /\ map callKind made
               `prefix_of` [KGet; KClusterConfig; KRoundTripper; KNewForwarder;
                            KForwardPorts]
          /\ (terminated c = false ->
              validatePodName podName = None ->
              validatePort localPort = None ->
              validatePort remotePort = None ->
              made <> [])
          /\ forallb (fun call => negb (callFailed call)) (removelast made) = true
          /\ (forall lastCall,
                last made = Some lastCall -> length made < 5 -> callFailed lastCall = true)
          /\ (fst (PortForwardPod c podName localPort remotePort s) = None
              <-> length made = 5
                  /\ forallb (fun call => negb (callFailed call)) made = true)).
Proof.
  split.
  - intros. unfold RunCommandInPod. run_calls;
      rewrite <- ?app_assoc; cbn [app];
      (eexists; split;
       [ first [ reflexivity | symmetry; apply app_nil_r ] | ]);
      (split; [cbn [map callKind]; first [apply prefix_nil | by eexists] |]);
      (split; [intros; congruence |]);
      cbn [removelast forallb last length callFailed negb andb];
      rewrite ?Heqo, ?Heqo0, ?Heqo1, ?Heqo2, ?Heqb, ?Heqb0;
      cbn [negb andb];
      (split; [done |]);
      (split; [intros lastCall [= <-] Hlen; cbn [callFailed];
               rewrite ?Heqo, ?Heqo0, ?Heqo1, ?Heqo2, ?Heqb, ?Heqb0;
               first [done | lia] |]);
      (split; [first [done | intros _; split; done] | first [done | intros [? ?]; done]]).
  - intros. unfold PortForwardPod. run_calls;
      try match goal with |- context [selectResult ?f] => destruct f eqn:? end;
      rewrite <- ?app_assoc; cbn [app];
      (eexists; split;
       [ first [ reflexivity | symmetry; apply app_nil_r ] | ]);
      (split; [cbn [map callKind]; first [apply prefix_nil | by eexists] |]);
      (split; [intros; congruence |]);
      cbn [removelast forallb last length callFailed negb andb selectResult];
      rewrite ?Heqb, ?Heqb0;
      cbn [negb andb];
      (split; [done |]);
      (split; [intros lastCall [= <-] Hlen; cbn [callFailed];
               rewrite ?Heqb, ?Heqb0;
               first [done | lia] |]);
      (split; [first [done | intros _; split; done] | first [done | intros [? ?]; done]]).
Qed.

(** X13. PortForwardPod returns nil only when the ready case of its select
    fired: its last call is then the forwarding, with a timer of twice
    waitRetry, answered by the ready signal. *)
Theorem X13_port_forward_succeeds_only_when_ready
    c (podName : string) (localPort remotePort : Z) s s' :
  PortForwardPod c podName localPort remotePort s = (None, s') ->
  exists before,
    calls s' = before ++ [CallForwardPorts (waitRetry * 2)%Z CaseReady].
Proof.
  unfold PortForwardPod. run_calls; intros [= Hres <-]; try done.
  match goal with H : selectResult ?f = None |- _ => destruct f; try done end.
  cbn [calls]. by eexists.
Qed.

(** X14. IsPodRunning calls nothing but one Get.  For a pod that reports no
    container status at all, as one that has only just been accepted, it
    returns true. *)
Theorem X14_IsPodRunning_without_statuses c (name : string) s :
  (exists made,
     calls (snd (IsPodRunning c name s)) = calls s ++ made
     /\ map callKind made `prefix_of` [KGet])
  /\ (forall pod w1,
        terminated c = false ->
        Pods_Get (namespace c) name (world s) = (Ok pod, w1) ->
        v1.ContainerStatuses (v1.Status pod) = [] ->
        fst (IsPodRunning c name s) = (true, None)).
Proof.
  split.
  - unfold IsPodRunning. run_calls;
      first [ by exists []; rewrite app_nil_r; split; [| apply prefix_nil]
            | eexists; split; [reflexivity |]; cbn [map callKind]; by eexists ].
  - intros pod w1 Ht Hget Hnone. unfold IsPodRunning, bind, getPod, call, ret.
    rewrite Ht, Hget. cbn [fst]. by rewrite Hnone.
Qed.

Lemma DeployPod_created_calls c (podConfig : PodConfig) (init : bool) s (pod : v1.Pod) s' :
  DeployPod c podConfig init s = (Ok pod, s') ->
  calls s' = calls s ++ [CallCreate (namespace c) (preparePod podConfig init) (Ok pod)].
Proof. unfold DeployPod. run_calls; intros [= <- <-]; done. Qed.

(** X17. DeployPod does not look the pod up first: its only call is the
    Create, in the client's namespace, of the manifest built from the
    configuration and the seeding flag.  It returns the pod the platform
    answers with; an error comes either without any call (terminated client,
    invalid configuration) or from the Create, already-exists included,
    wrapped in ErrCreatingPod. *)
Theorem X17_DeployPod_only_creates c (podConfig : PodConfig) (init : bool) s :
  (forall pod s',
     DeployPod c podConfig init s = (Ok pod, s') ->
     calls s' = calls s
                ++ [CallCreate (namespace c) (preparePod podConfig init) (Ok pod)])
  /\ (forall err s',
        DeployPod c podConfig init s = (Err err, s') ->
        s' = s
        \/ exists cause,
             err = errors.Wrap ErrCreatingPod (Some cause)
             /\ calls s' = calls s
                  ++ [CallCreate (namespace c) (preparePod podConfig init) (Err cause)]).
Proof.
  split.
  - intros pod s'. apply DeployPod_created_calls.
  - intros err s'. unfold DeployPod. run_calls; intros [= <- <-]; try by left.
    right. by eexists.
Qed.

(** X18. DeletePodWithGracePeriod returns nil in exactly two cases, both on
    a client that is not terminated: the Get answers not-found, or the Get
    finds the pod and the Delete succeeds. *)
Theorem X18_DeletePod_succeeds_iff_absent_or_deleted
    c (name : string) (grace : option Z) s :
  fst (DeletePodWithGracePeriod c name grace s) = None
  <-> terminated c = false
      /\ ((exists err w1,
             Pods_Get (namespace c) name (world s) = (Err err, w1)
             /\ apierrs.IsNotFound err = true)
          \/ (exists pod w1 w2,
                Pods_Get (namespace c) name (world s) = (Ok pod, w1)
                /\ Pods_Delete (namespace c) name grace w1 = (None, w2))).
Proof.
  unfold DeletePodWithGracePeriod. run_calls; split; try done.
  all: try (intros _; split; [done |];
            first [ left; by eexists _, _ | right; by eexists _, _, _ ]).
  all: try (intros [? _]; congruence).
  all: intros [_ [(cause & w1' & Hget & Hnf) | (found & w1' & w2' & Hget & Hdel)]];
    congruence.
Qed.


(** X15. What ReplacePodWithGracePeriod returns comes from its three
    operations.  When it returns a pod, the delete and the wait returned
    nil, DeployPod with the seeding flag off returned that pod, and the last
    call is the Create of the manifest built without seeding, answered with
    that pod.  When it returns an error, either DeletePodWithGracePeriod
    returned an error and the result is ErrDeletingPod wrapping it; or the
    delete returned nil, the wait returned an error, and the result is
    ErrWaitingForPodDeletion, with the pod's name, wrapping it; or both
    returned nil, DeployPod returned an error, and the result is
    ErrDeployingPod wrapping it.  The state returned is the state of that
    last operation. *)
Theorem X15_replace_results
    (fuel : nat) c (podConfig : PodConfig) (grace : option Z) s
    (res : result v1.Pod) s' :
  ReplacePodWithGracePeriod fuel c podConfig grace s = (Some res, s') ->
  match res with
  | Ok pod =>
      (exists before,
         calls s' = before
                    ++ [CallCreate (namespace c) (preparePod podConfig false) (Ok pod)])
      /\ exists s1 s2,
           DeletePodWithGracePeriod c (PodName podConfig) grace s = (None, s1)
           /\ waitForPodDeletion fuel c (PodName podConfig) s1 = (Some None, s2)
           /\ DeployPod c podConfig false s2 = (Ok pod, s')
  | Err err =>
      (exists cause,
         DeletePodWithGracePeriod c (PodName podConfig) grace s = (Some cause, s')
         /\ err = errors.Wrap ErrDeletingPod (Some cause))
      \/ (exists s1 cause,
            DeletePodWithGracePeriod c (PodName podConfig) grace s = (None, s1)
            /\ waitForPodDeletion fuel c (PodName podConfig) s1 = (Some (Some cause), s')
            /\ err = errors.Wrap
                       (errors.WithParams ErrWaitingForPodDeletion [PodName podConfig])
                       (Some cause))
      \/ (exists s1 s2 cause,
            DeletePodWithGracePeriod c (PodName podConfig) grace s = (None, s1)
            /\ waitForPodDeletion fuel c (PodName podConfig) s1 = (Some None, s2)
            /\ DeployPod c podConfig false s2 = (Err cause, s')
            /\ err = errors.Wrap ErrDeployingPod (Some cause))
  end.
Proof.
  unfold ReplacePodWithGracePeriod, bind, ret.
  destruct (DeletePodWithGracePeriod c (PodName podConfig) grace s)
    as [[err |] s1] eqn:Hdelete.
  { intros [= <- <-]. left. by eexists. }
  destruct (waitForPodDeletion fuel c (PodName podConfig) s1)
    as [[[err |] |] s2] eqn:Hwait; [| | done].
  { intros [= <- <-]. right. left. by eexists _, _. }
  destruct (DeployPod c podConfig false s2) as [[pod | err] s3] eqn:Hdeploy;
    intros [= <- <-].
  - split; [| by eexists _, _].
    apply DeployPod_created_calls in Hdeploy. by eexists.
  - right. right. by eexists _, _, _.
Qed.

(** *** The select and the goroutine *)

(** X21. After a successful PortForwardPod too, a later failure of the
    forwarder leaves the goroutine at its send on the error channel: the
    caller has returned nil, nothing receives from the channel any more, and
    no later step moves the goroutine on. *)
Theorem X21_forwarder_failure_after_ready
    (err : error) (schedule : list Race.Action) (st : Race.State) :
  Race.run (Race.RemoteReady :: Race.FireReady
              :: Race.ForwardReturns (Some err) :: schedule) Race.init = Some st ->
  Race.caller st = Race.Returned None
  /\ Race.goroutine st = Race.Sending err.
Proof.
  cbn [Race.run Race.step Race.init Race.goroutine Race.caller Race.readyClosed
         Race.setCaller Race.setGoroutine].
  intros Hrun. by eapply Race_run_sending in Hrun.
Qed.

(** X22. No step of PortForwardPod or of its goroutine signals the stop
    channel: in every state reached from the start it has not been
    signalled, and a caller that has returned keeps its result. *)
Theorem X22_stop_channel_is_never_signalled
    (schedule later : list Race.Action) (st st' : Race.State) (res : option error) :
  Race.run schedule Race.init = Some st ->
  Race.stopSignalled st = false
  /\ (Race.caller st = Race.Returned res ->
      Race.run later st = Some st' ->
      Race.caller st' = Race.Returned res).
Proof.
  intros Hrun. split; [by apply Race_run_stop in Hrun |].
  clear Hrun. revert st. induction later as [|a later IH]; intros st Hc; cbn [Race.run].
  - by intros [= <-].
  - destruct (Race.step a st) as [st1 |] eqn:Hstep; [| done].
    apply IH. by destruct (proj1 (Race_step_returned a st st1 Hstep) res Hc).
Qed.

End MoreClientProperties.

(** ** The further properties at the example platform *)

Lemma X10_witness :
  PortForwardPod Example.active "validator-0" 0 8080 (Example.start Example.runningWorld)
  = (Some (errors.asError (errors.WithParams ErrInvalidPort ["0"])),
     Example.start Example.runningWorld).
Proof.
  refine (proj2 (proj2 (X10_validation_failure_makes_no_call Example.active
                          (Example.start Example.runningWorld) _))
            "validator-0" 0%Z 8080%Z _).
  right. left. split; reflexivity.
Defined.

Lemma X11_witness :
  fst (fst (RunCommandInPod Example.stopped "validator-0" "validator-0" ["ls"]
              (Example.start Example.runningWorld)))
  = EmptyString.
Proof.
  apply (proj1 (X11_exec_output_only_on_success Example.stopped "validator-0"
                  "validator-0" ["ls"] (Example.start Example.runningWorld))).
  discriminate.
Defined.

Lemma X12_witness :
  exists made,
    calls (snd (RunCommandInPod Example.active "validator-0" "validator-0" ["ls"]
                  (Example.start Example.runningWorld)))
    = calls (Example.start Example.runningWorld) ++ made
    /\ made <> [].
Proof.
  destruct (proj1 (X12_exec_and_port_forward_call_order Example.active
                     (Example.start Example.runningWorld))
              "validator-0" "validator-0" ["ls"])
    as (made & Hcalls & _ & Hmade & _).
  exists made. split; [exact Hcalls |].
  apply Hmade; reflexivity.
Defined.

Lemma X13_witness :
  exists before,
    calls (snd (PortForwardPod Example.active "validator-0" 8080 80
                  (Example.start Example.readyWorld)))
    = before ++ [CallForwardPorts (waitRetry * 2)%Z CaseReady].
Proof.
  refine (X13_port_forward_succeeds_only_when_ready Example.active "validator-0"
            8080 80 (Example.start Example.readyWorld) _ _).
  reflexivity.
Defined.

Lemma X14_witness :
  fst (IsPodRunning Example.active "validator-0" (Example.start Example.pendingWorld))
  = (true, None).
Proof.
  refine (proj2 (X14_IsPodRunning_without_statuses Example.active "validator-0"
                   (Example.start Example.pendingWorld))
            Example.pendingPod Example.pendingWorld _ _ _);
    reflexivity.
Defined.

Lemma X15_witness :
  exists before,
    calls (snd (ReplacePodWithGracePeriod 1 Example.active (Example.podConfig [] []) None
                  (Example.start Example.emptyWorld)))
    = before ++ [CallCreate "test" (preparePod (Example.podConfig [] []) false)
                   (Ok (preparePod (Example.podConfig [] []) false))].
Proof.
  refine (proj1 (X15_replace_results 1 Example.active (Example.podConfig [] []) None
                   (Example.start Example.emptyWorld)
                   (Ok (preparePod (Example.podConfig [] []) false)) _ _)).
  reflexivity.
Defined.


Lemma X17_witness :
  calls (snd (DeployPod Example.active (Example.podConfig [] []) true
                (Example.start Example.emptyWorld)))
  = [CallCreate "test" (preparePod (Example.podConfig [] []) true)
       (Ok (preparePod (Example.podConfig [] []) true))].
Proof.
  refine (proj1 (X17_DeployPod_only_creates Example.active (Example.podConfig [] []) true
                   (Example.start Example.emptyWorld)) _ _ _).
  reflexivity.
Defined.

Lemma X21_witness :
  Race.caller
    {| Race.caller := Race.Returned None;
       Race.goroutine := Race.Sending Example.lostConnection;
       Race.readyClosed := true; Race.errClosed := false;
       Race.stopSignalled := false; Race.elapsed := 0%Z |}
  = Race.Returned None
  /\ Race.goroutine
       {| Race.caller := Race.Returned None;
          Race.goroutine := Race.Sending Example.lostConnection;
          Race.readyClosed := true; Race.errClosed := false;
          Race.stopSignalled := false; Race.elapsed := 0%Z |}
     = Race.Sending Example.lostConnection.
Proof.
  refine (X21_forwarder_failure_after_ready Example.lostConnection [] _ _).
  reflexivity.
Defined.

Lemma X22_witness :
  Race.stopSignalled Example.leaked = false.
Proof.
  refine (proj1 (X22_stop_channel_is_never_signalled
                   [Race.Elapse (waitRetry * 2)%Z; Race.FireTimeout;
                    Race.ForwardReturns (Some Example.lostConnection)]
                   [] Example.leaked Example.leaked None _)).
  reflexivity.
Defined.
